(** * ExtensionDemo: route matching and debounced URL dispatch

    A shallow embedding of the browser extension's two core scripts:

    - the site manager ([findHandlerForUrl] and its helpers), which
      resolves a URL to a registered page handler;
    - the content script ([handleUrlChange], [processUrlChange]), which
      debounces URL-change signals and dispatches the settled URL.

    JavaScript strings are sequences of code units; they are modelled by
    [string], whose characters play the role of code units.  All the
    separators the code looks for (["?"], ["#"], ["/"], ["."]) are single
    units. *)

From Stdlib Require Import String Ascii List ZArith Bool Lia.
Import ListNotations.

Local Open Scope list_scope.
Local Open Scope string_scope.

(** ** JavaScript string and array primitives used by the scripts *)

Module Js.

(** [s.startsWith(t)] *)
Definition startsWith (s t : string) : bool := String.prefix t s.

(** [s.includes(t)]: [t] occurs in [s] at some position. *)
Fixpoint includes (s t : string) : bool :=
  String.prefix t s
  || match s with
     | EmptyString => false
     | String _ s' => includes s' t
     end.

(** [s.endsWith(t)]: the last [t.length] units of [s] are [t]. *)
Definition endsWith (s t : string) : bool :=
  (String.length t <=? String.length s)%nat
  && String.eqb
       (String.substring (String.length s - String.length t)
                         (String.length t) s) t.

(** [s.split(sep)] for a one-unit separator.  The result is never
    empty: [""] splits into [[""]]. *)
Fixpoint split (sep : ascii) (s : string) : list string :=
  match s with
  | EmptyString => [EmptyString]
  | String c s' =>
      if Ascii.eqb c sep then EmptyString :: split sep s'
      else match split sep s' with
           | piece :: rest => String c piece :: rest
           | [] => [String c EmptyString]
           end
  end.

(** [a.join(sep)] on an array of strings. *)
Fixpoint join (sep : string) (a : list string) : string :=
  match a with
  | [] => EmptyString
  | [x] => x
  | x :: rest => x ++ sep ++ join sep rest
  end.

(** [a.slice(1)] *)
Definition slice1 {A : Type} (a : list A) : list A := tl a.

(** [a[i]] on an array of strings; [None] stands for [undefined]. *)
Definition at_ (a : list string) (i : nat) : option string := nth_error a i.

(** [a[i]] at an index the code has guarded (or index 0 of the result
    of [split], which always exists). *)
Definition get (a : list string) (i : nat) : string := nth i a EmptyString.

(** Truthiness of a string: only [""] is falsy. *)
Definition truthy (s : string) : bool := negb (String.eqb s EmptyString).

(** [a.filter(Boolean)] on an array of strings. *)
Definition filterBoolean (a : list string) : list string := filter truthy a.

(** [x !== y] where either side may be [undefined]. *)
Definition strict_neq (x y : option string) : bool :=
  match x, y with
  | Some a, Some b => negb (String.eqb a b)
  | None, None => false
  | _, _ => true
  end.

(** [s.slice(0, -1)]: all but the last unit. *)
Definition dropLast (s : string) : string :=
  String.substring 0 (String.length s - 1) s.

(** [s.substring(a, b)]: both indices are clamped to [0 .. s.length]
    and swapped when [a > b]. *)
Definition substring (s : string) (a b : Z) : string :=
  let len := Z.of_nat (String.length s) in
  let a' := Z.min (Z.max a 0) len in
  let b' := Z.min (Z.max b 0) len in
  let lo := Z.min a' b' in
  let hi := Z.max a' b' in
  String.substring (Z.to_nat lo) (Z.to_nat (hi - lo)) s.

(** [array.find(callback)] *)
Fixpoint find {A : Type} (f : A -> bool) (a : list A) : option A :=
  match a with
  | [] => None
  | x :: rest => if f x then Some x else find f rest
  end.

End Js.

(** ** Exceptions

    Code that may throw returns a [result]; [try_catch] is the
    [try { ... } catch (e) { ... }] statement. *)

Inductive JsError : Type :=
| TypeError (message : string)
| SyntaxError (message : string).

Inductive result (A : Type) : Type :=
| Ok (value : A)
| Throw (error : JsError).

Arguments Ok {A} value.
Arguments Throw {A} error.

Definition bind {A B : Type} (m : result A) (k : A -> result B) : result B :=
  match m with
  | Ok a => k a
  | Throw e => Throw e
  end.

Definition try_catch {A : Type} (body : result A) (handler : JsError -> result A)
  : result A :=
  match body with
  | Ok a => Ok a
  | Throw e => handler e
  end.

Notation "x <- m ;; k" := (bind m (fun x => k))
  (at level 61, m at next level, right associativity).

(** [array.find(callback)] when the callback may throw: the exception
    leaves [find]. *)
Fixpoint findM {A : Type} (f : A -> result bool) (a : list A)
  : result (option A) :=
  match a with
  | [] => Ok None
  | x :: rest =>
      match f x with
      | Throw e => Throw e
      | Ok true => Ok (Some x)
      | Ok false => findM f rest
      end
  end.

(** ** The host platform

    The scripts call two constructors of the browser: [new URL(s)] and
    [new RegExp(s)].  Both may throw.  Of a URL object the code reads
    [hostname], [pathname] and [hash]; [search] is kept in the record
    because the specification speaks of it.  The one fact about regular
    expressions the model relies on is that the pattern ["/"], a single
    literal character, compiles. *)

Record URL : Type := mkURL {
  hostname : string;
  pathname : string;
  search : string;
  hash : string
}.

Class Platform : Type := {
  RegExp : Type;
  newRegExp : string -> result RegExp;
  test : RegExp -> string -> bool;
  newURL : string -> result URL;
  slash_compiles : exists regex, newRegExp "/" = Ok regex
}.

(** ** Site manager *)

Record UrlParts : Type := mkUrlParts {
  path : string;
  query : string;
  hashPart : string;
  fullPathOf : string
}.

(** [parseUrlParts(url)] *)
Definition parseUrlParts (url : string) : UrlParts :=
  let pathParts := Js.split "?" url in
  let path0 := Js.get pathParts 0 in
  let queryAndHash :=
    if (1 <? List.length pathParts)%nat then Js.get pathParts 1 else "" in
  let hashParts := Js.split "#" queryAndHash in
  let query0 := Js.get hashParts 0 in
  let hash0 :=
    if (1 <? List.length hashParts)%nat then "#" ++ Js.get hashParts 1 else "" in
  let '(path1, query1, hash1) :=
    if (List.length pathParts =? 1)%nat && Js.includes url "#" then
      let fullHashParts := Js.split "#" url in
      (Js.get fullHashParts 0,
       "",
       "#" ++ Js.join "#" (Js.slice1 fullHashParts))
    else (path0, query0, hash0) in
  {| path := path1;
     query := query1;
     hashPart := hash1;
     fullPathOf :=
       path1 ++ (if Js.truthy query1 then "?" ++ query1 else "") ++ hash1 |}.

(** [matchAllPages(routePath)] *)
Definition matchAllPages (routePath : string) : bool :=
  String.eqb routePath "/".

(** [matchExact(routePath, urlFullPath)] *)
Definition matchExact (routePath urlFullPath : string) : bool :=
  String.eqb routePath urlFullPath.

(** [matchPathExact(routePath, urlParts)] *)
Definition matchPathExact (routePath : string) (urlParts : UrlParts) : bool :=
  let normalizedRoutePath :=
    if Js.endsWith routePath "/" then Js.dropLast routePath else routePath in
  let normalizedUrlPath :=
    if Js.endsWith (path urlParts) "/" then Js.dropLast (path urlParts)
    else path urlParts in
  String.eqb normalizedRoutePath normalizedUrlPath.

(** The [for] loop of [matchPathPrefix]: [i] is the loop index and
    [todo] the number of iterations left, [routeParts.length - i]. *)
Fixpoint comparePartsFrom (routeParts urlPathParts : list string)
         (i todo : nat) : bool :=
  match todo with
  | O => true
  | S todo' =>
      if Js.strict_neq (Js.at_ routeParts i) (Js.at_ urlPathParts i)
      then false
      else comparePartsFrom routeParts urlPathParts (S i) todo'
  end.

(** [matchPathPrefix(routePath, urlParts)] *)
Definition matchPathPrefix (routePath : string) (urlParts : UrlParts) : bool :=
  let routeParts := Js.filterBoolean (Js.split "/" routePath) in
  let urlPathParts := Js.filterBoolean (Js.split "/" (path urlParts)) in
  if (List.length urlPathParts <? List.length routeParts)%nat then false
  else comparePartsFrom routeParts urlPathParts 0 (List.length routeParts).

(** The test [findHandlerForUrl] applies to the [url] of a site, in
    both versions of the site manager. *)
Definition hostMatches (hostname siteUrl : string) : bool :=
  String.eqb hostname siteUrl
  || Js.endsWith hostname ("." ++ siteUrl)
  || Js.includes hostname siteUrl.

Section SiteManager.

Context {P : Platform}.

(** Handlers are opaque callbacks to the site manager. *)
Variable Handler : Type.

(** A route of a site configuration.  [matchType] is an optional
    string property; [handler] is [None] when the property holds no
    function. *)
Record Route : Type := mkRoute {
  routePath : string;
  matchType : option string;
  handler : option Handler
}.

Record Site : Type := mkSite {
  siteUrl : string;
  routes : list Route
}.

(** [matchRegex(routePath, urlFullPath)] *)
Definition matchRegex (routePath urlFullPath : string) : result bool :=
  try_catch
    (let regexStr :=
       Js.substring routePath 1 (Z.of_nat (String.length routePath) - 1) in
     regex <- newRegExp regexStr ;;
     Ok (test regex urlFullPath))
    (fun _ => Ok false).

Definition matchTypeIs (route : Route) (name : string) : bool :=
  match matchType route with
  | Some m => String.eqb m name
  | None => false
  end.

(** The callback [findMatchingRoute] hands to [routes.find]. *)
Definition routeMatches (fullPath : string) (route : Route) : result bool :=
  let urlParts := parseUrlParts fullPath in
  if matchAllPages (routePath route) then Ok true
  else if matchTypeIs route "exact" then
    Ok (matchExact (routePath route) fullPath)
  else if matchTypeIs route "pathExact" then
    Ok (matchPathExact (routePath route) urlParts)
  else if matchTypeIs route "regex" then
    matchRegex (routePath route) fullPath
  else Ok (matchPathPrefix (routePath route) urlParts).

(** [findMatchingRoute(site, fullPath, pathname, hash)] *)
Definition findMatchingRoute (site : Site) (fullPath pathname hash : string)
  : result (option Route) :=
  findM (routeMatches fullPath) (routes site).

(** The callback [findHandlerForUrl] hands to [siteConfigs.find]. *)
Definition siteMatches (hostname : string) (site : Site) : bool :=
  hostMatches hostname (siteUrl site).

(** [findHandlerForUrl(url)] over the registry [siteConfigs].  The
    result [None] is the script's [null] (or a route whose [handler]
    property is empty); console output is not modelled. *)
Definition findHandlerForUrl (siteConfigs : list Site) (url : string)
  : result (option Handler) :=
  try_catch
    (urlObj <- newURL url ;;
     let hostname := hostname urlObj in
     let pathname := pathname urlObj in
     let hash := hash urlObj in
     let fullPath := pathname ++ hash in
     match Js.find (siteMatches hostname) siteConfigs with
     | None => Ok None
     | Some site =>
         route <- findMatchingRoute site fullPath pathname hash ;;
         Ok (match route with
             | Some r => handler r
             | None => None
             end)
     end)
    (fun _ => Ok None).

(** The registry shipped with the extension. *)
Definition siteConfigs (handleAndfleet : Handler) : list Site :=
  [ {| siteUrl := "andfleet.cm-iov.com";
       routes := [ {| routePath := "/v1/evhe/#/order/";
                      matchType := Some "pathPrefix";
                      handler := Some handleAndfleet |} ] |} ].

End SiteManager.

(** ** Content script: the debounced dispatcher *)

(** [String(v)] for a value that is a string or [null]. *)
Definition toStringOrNull (v : option string) : string :=
  match v with
  | Some s => s
  | None => "null"
  end.

(** [v === w] for values that are strings or [null]. *)
Definition strict_eq (v w : option string) : bool :=
  match v, w with
  | Some a, Some b => String.eqb a b
  | None, None => true
  | _, _ => false
  end.

Module CONFIG.
Definition URL_PROCESS_DELAY : Z := 2000.
Definition URL_REPEAT_THRESHOLD : Z := 2000.
End CONFIG.

(** The [state] object.  [None] is [null]; a timer handle is the
    number [setTimeout] returned. *)
Record State : Type := mkState {
  lastProcessedUrl : option string;
  lastProcessTime : Z;
  contentScriptLoaded : bool;
  urlChangeTimer : option N;
  pendingUrl : option string
}.

Definition initialState : State :=
  {| lastProcessedUrl := Some "";
     lastProcessTime := 0;
     contentScriptLoaded := false;
     urlChangeTimer := None;
     pendingUrl := None |}.

(** What [processUrlChange] reads from [document], [window] and
    [navigator], after the [|| ''] and [|| 0] defaults. *)
Module Page.
Record t : Type := mk {
  title : string;
  referrer : string;
  hostname : string;
  pathname : string;
  hash : string;
  search : string;
  userAgent : string;
  language : string;
  platform : string;
  windowWidth : Z;
  windowHeight : Z;
  screenWidth : Z;
  screenHeight : Z;
  documentReady : string
}.
End Page.

(** The [pageInfo] object handed to a handler. *)
Record PageInfo : Type := mkPageInfo {
  url : option string;
  page : Page.t;
  timestamp : Z
}.

(** What a handler does while it runs, as far as the content script
    can notice: the URL changes it signals, in order, and whether it
    returns or throws.  A handler that calls [history.pushState] or
    [history.replaceState] reaches [handleUrlChange] through the
    wrappers of the URL monitor, synchronously, before it returns. *)
Record HandlerRun : Type := mkHandlerRun {
  signalled : list string;
  outcome : result unit
}.

Section ContentScript.

Variable Handler : Type.

(** [window.SiteManager.findHandlerForUrl], when the global is there
    and holds a function. *)
Variable SiteManager : option (option string -> result (option Handler)).

(** Calling a handler: the URL changes it signals before it returns,
    and how it ends.  What else a handler does to the page is outside
    the model. *)
Variable invoke : Handler -> PageInfo -> HandlerRun.

(** Calls that leave the content script, in the order they happen. *)
Inductive Effect : Type :=
| LogProcessing (url : option string)
| FindHandlerCall (url : option string)
| HandlerCall (h : Handler) (info : PageInfo)
| LogError (e : JsError).

(** The page context the script runs in: its [state] object, the
    clock ([Date.now()], in milliseconds, also the clock of the
    timers), the timeouts that are scheduled and not yet fired or
    cleared (handle and due time), the handle the next [setTimeout]
    returns, the page, and the calls made so far. *)
Record World : Type := mkWorld {
  state : State;
  now : Z;
  timers : list (N * Z);
  nextHandle : N;
  thePage : Page.t;
  trace : list Effect
}.

Definition initialWorld (t0 : Z) (pg : Page.t) : World :=
  {| state := initialState;
     now := t0;
     timers := [];
     nextHandle := 1;
     thePage := pg;
     trace := [] |}.

Definition withState (st : State) (w : World) : World :=
  {| state := st; now := now w; timers := timers w;
     nextHandle := nextHandle w; thePage := thePage w; trace := trace w |}.

Definition emit (e : Effect) (w : World) : World :=
  {| state := state w; now := now w; timers := timers w;
     nextHandle := nextHandle w; thePage := thePage w;
     trace := (trace w ++ [e])%list |}.

(** [setTimeout(callback, delay)]: the only callback the script ever
    schedules is [timerCallback] below, so a timer is its handle and
    its due time. *)
Definition setTimeout (delay : Z) (w : World) : N * World :=
  (nextHandle w,
   {| state := state w; now := now w;
      timers := (timers w ++ [(nextHandle w, now w + delay)%Z])%list;
      nextHandle := nextHandle w + 1; thePage := thePage w;
      trace := trace w |}).

(** [clearTimeout(handle)] *)
Definition clearTimeout (handle : N) (w : World) : World :=
  {| state := state w; now := now w;
     timers := filter (fun t => negb (N.eqb (fst t) handle)) (timers w);
     nextHandle := nextHandle w; thePage := thePage w; trace := trace w |}.

Definition setUrlChangeTimer (h : option N) (w : World) : World :=
  let st := state w in
  withState {| lastProcessedUrl := lastProcessedUrl st;
               lastProcessTime := lastProcessTime st;
               contentScriptLoaded := contentScriptLoaded st;
               urlChangeTimer := h;
               pendingUrl := pendingUrl st |} w.

Definition setPendingUrl (u : option string) (w : World) : World :=
  let st := state w in
  withState {| lastProcessedUrl := lastProcessedUrl st;
               lastProcessTime := lastProcessTime st;
               contentScriptLoaded := contentScriptLoaded st;
               urlChangeTimer := urlChangeTimer st;
               pendingUrl := u |} w.

(** Truthiness of [state.urlChangeTimer]: [null] and the number 0
    are falsy. *)
Definition timerTruthy (h : option N) : bool :=
  match h with
  | Some n => negb (N.eqb n 0)
  | None => false
  end.

(** [handleUrlChange(url)] *)
Definition handleUrlChange (url : string) (w : World) : World :=
  let w :=
    if timerTruthy (urlChangeTimer (state w)) then
      match urlChangeTimer (state w) with
      | Some h => setUrlChangeTimer None (clearTimeout h w)
      | None => w
      end
    else w in
  let w := setPendingUrl (Some url) w in
  let '(h, w) := setTimeout CONFIG.URL_PROCESS_DELAY w in
  setUrlChangeTimer (Some h) w.

(** The URL changes a handler signals while it runs: each one is a
    call of [handleUrlChange]. *)
Definition signalAll (urls : list string) (w : World) : World :=
  fold_left (fun w u => handleUrlChange u w) urls w.

(** The body of the [try] block of [processUrlChange]. *)
Definition dispatch (url : option string) (nowMs : Z) (w : World) : World :=
  match SiteManager with
  | None => w
  | Some findHandler =>
      let w1 := emit (FindHandlerCall url) w in
      match findHandler url with
      | Throw e => emit (LogError e) w1
      | Ok None => w1
      | Ok (Some h) =>
          let pageInfo :=
            {| url := url; page := thePage w1; timestamp := nowMs |} in
          let w2 := emit (HandlerCall h pageInfo) w1 in
          let ran := invoke h pageInfo in
          let w3 := signalAll (signalled ran) w2 in
          match outcome ran with
          | Throw e => emit (LogError e) w3
          | Ok _ => w3
          end
      end
  end.

(** [processUrlChange(url)] *)
Definition processUrlChange (url : option string) (w : World) : World :=
  let w := emit (LogProcessing url) w in
  let nowMs := now w in
  if strict_eq url (lastProcessedUrl (state w))
     && (nowMs - lastProcessTime (state w) <? CONFIG.URL_REPEAT_THRESHOLD)%Z
  then w
  else
    let st := state w in
    let w :=
      withState {| lastProcessedUrl := url;
                   lastProcessTime := nowMs;
                   contentScriptLoaded := contentScriptLoaded st;
                   urlChangeTimer := urlChangeTimer st;
                   pendingUrl := pendingUrl st |} w in
    dispatch url nowMs w.

(** The function [handleUrlChange] passes to [setTimeout]. *)
Definition timerCallback (w : World) : World :=
  let w := processUrlChange (pendingUrl (state w)) w in
  setUrlChangeTimer None w.

(** *** The event loop

    Time passes between signals; a timeout fires when its due time is
    reached, earliest first (ties in the order of scheduling). *)

Definition earlier (a b : N * Z) : bool :=
  (snd a <? snd b)%Z || ((snd a =? snd b)%Z && (fst a <=? fst b)%N).

Fixpoint earliest (l : list (N * Z)) : option (N * Z) :=
  match l with
  | [] => None
  | t :: rest =>
      match earliest rest with
      | None => Some t
      | Some t' => Some (if earlier t t' then t else t')
      end
  end.

Definition nextDue (target : Z) (l : list (N * Z)) : option (N * Z) :=
  earliest (filter (fun t => (snd t <=? target)%Z) l).

Definition setNow (t : Z) (w : World) : World :=
  {| state := state w; now := t; timers := timers w;
     nextHandle := nextHandle w; thePage := thePage w; trace := trace w |}.

(** A timeout fires: it leaves the table and its callback runs. *)
Definition fire (t : N * Z) (w : World) : World :=
  timerCallback (clearTimeout (fst t) (setNow (Z.max (now w) (snd t)) w)).

(** Let the clock reach [target], firing what falls due on the way,
    at most [fuel] timeouts. *)
Fixpoint advance (fuel : nat) (target : Z) (w : World) : World :=
  match fuel with
  | O => setNow (Z.max (now w) target) w
  | S fuel' =>
      match nextDue target (timers w) with
      | None => setNow (Z.max (now w) target) w
      | Some t => advance fuel' target (fire t w)
      end
  end.

Inductive Event : Type :=
| Signal (url : string)   (* a URL-change signal reaches handleUrlChange *)
| Wait (ms : N).          (* that many milliseconds pass *)

(** How many timeouts can fire while [ms] milliseconds pass: a
    timeout that fires leaves behind at most one new timeout (the last
    one a handler signalled for), due a full delay later, so each live
    timeout accounts for one firing now and one more per delay that
    fits into [ms]. *)
Definition waitFuel (w : World) (ms : N) : nat :=
  (List.length (timers w)
   * S (Z.to_nat (Z.of_N ms / CONFIG.URL_PROCESS_DELAY)))%nat.

Definition exec (w : World) (e : Event) : World :=
  match e with
  | Signal u => handleUrlChange u w
  | Wait ms => advance (waitFuel w ms) (now w + Z.of_N ms) w
  end.

Definition run (events : list Event) (w : World) : World :=
  fold_left exec events w.

(** The URLs [processUrlChange] was called with, oldest first. *)
Fixpoint dispatched (tr : list Effect) : list (option string) :=
  match tr with
  | [] => []
  | LogProcessing u :: rest => u :: dispatched rest
  | _ :: rest => dispatched rest
  end.

(** The URL of the most recent signal of a run. *)
Fixpoint lastSignal (events : list Event) (before : option string)
  : option string :=
  match events with
  | [] => before
  | Signal u :: rest => lastSignal rest (Some u)
  | Wait _ :: rest => lastSignal rest before
  end.

(** The invariant of the dispatch state: the timer table holds
    exactly the timeout [state.urlChangeTimer] names, and nothing
    when it is [null]. *)
Definition Inv (w : World) : Prop :=
  (0 < nextHandle w)%N /\
  match urlChangeTimer (state w) with
  | None => timers w = []
  | Some h =>
      (0 < h < nextHandle w)%N /\ exists due, timers w = [(h, due)]
  end.

End ContentScript.

Arguments LogProcessing {Handler} url.
Arguments FindHandlerCall {Handler} url.
Arguments HandlerCall {Handler} h info.
Arguments LogError {Handler} e.
Arguments mkWorld {Handler}.
Arguments state {Handler} w.
Arguments now {Handler} w.
Arguments timers {Handler} w.
Arguments nextHandle {Handler} w.
Arguments thePage {Handler} w.
Arguments trace {Handler} w.
Arguments initialWorld {Handler} t0 pg.
Arguments withState {Handler} st w.
Arguments emit {Handler} e w.
Arguments setTimeout {Handler} delay w.
Arguments clearTimeout {Handler} handle w.
Arguments setUrlChangeTimer {Handler} h w.
Arguments setPendingUrl {Handler} u w.
Arguments setNow {Handler} t w.
Arguments dispatched {Handler} tr.
Arguments Inv {Handler} w.
Arguments signalAll {Handler} urls w.
Arguments waitFuel {Handler} w ms.
Arguments dispatch {Handler} SiteManager invoke url nowMs w.
Arguments processUrlChange {Handler} SiteManager invoke url w.
Arguments timerCallback {Handler} SiteManager invoke w.
Arguments handleUrlChange {Handler} url w.
Arguments fire {Handler} SiteManager invoke t w.
Arguments advance {Handler} SiteManager invoke fuel target w.
Arguments exec {Handler} SiteManager invoke w e.
Arguments run {Handler} SiteManager invoke events w.

Arguments mkRoute {Handler}.
Arguments routePath {Handler} r.
Arguments matchType {Handler} r.
Arguments handler {Handler} r.
Arguments mkSite {Handler}.
Arguments siteUrl {Handler} s.
Arguments routes {Handler} s.
Arguments matchTypeIs {Handler} route name.
Arguments routeMatches {P Handler} fullPath route.
Arguments findMatchingRoute {P Handler} site fullPath pathname hash.
Arguments siteMatches {Handler} hostname site.
Arguments findHandlerForUrl {P Handler} siteConfigs url.
Arguments siteConfigs {Handler} handleAndfleet.

(** A handler that signals no URL change while it runs. *)
Definition Quiet {Handler : Type}
           (invoke : Handler -> PageInfo -> HandlerRun) : Prop :=
  forall h info, signalled (invoke h info) = [].

(** [window.SiteManager] as the site manager script installs it: the
    content script passes [state.pendingUrl], a string or [null], and
    [new URL] converts its argument to a string. *)
Definition installedSiteManager {P : Platform} {Handler : Type}
           (configs : list (Site Handler))
  : option (option string -> result (option Handler)) :=
  Some (fun url => findHandlerForUrl configs (toStringOrNull url)).

(** ** The earlier site manager ([siteManager.js])

    The same site selection, followed by a route test that works on
    the path alone: routes have no [matchType]. *)

Module Legacy.

(** [s.replace("*", "")]: the first ["*"] is removed. *)
Fixpoint removeFirstStar (s : string) : string :=
  match s with
  | EmptyString => EmptyString
  | String c s' =>
      if Ascii.eqb c "*" then s' else String c (removeFirstStar s')
  end.

Section SiteManager.

Context {P : Platform}.
Variable Handler : Type.

Record Route : Type := mkRoute {
  routePath : string;
  handler : option Handler
}.

Record Site : Type := mkSite {
  siteUrl : string;
  routes : list Route
}.

(** The callback handed to [site.routes.find]. *)
Definition routeMatches (fullPath pathname hash : string) (route : Route)
  : result bool :=
  let rp := routePath route in
  if String.eqb rp "/" then Ok true
  else if String.eqb fullPath rp then Ok true
  else if String.eqb pathname rp then Ok true
  else
    let routeHasHash := Js.includes rp "#" in
    if Js.endsWith rp "/" && negb (Js.includes rp "*") then
      if routeHasHash then Ok (Js.startsWith fullPath rp)
      else Ok (Js.startsWith pathname rp)
    else if negb (Js.endsWith rp "/") && negb (Js.includes rp "*") then
      if routeHasHash then
        let routePathParts := Js.split "#" rp in
        let routePathname := Js.get routePathParts 0 in
        let routeHash := Js.get routePathParts 1 in
        if negb (Js.startsWith pathname routePathname) then Ok false
        else if Js.truthy hash && Js.truthy routeHash
                && negb (Js.startsWith hash ("#" ++ routeHash))
             then Ok false
             else Ok true
      else
        let routeParts :=
          filter (fun part => (0 <? String.length part)%nat)
                 (Js.split "/" rp) in
        let pathParts :=
          filter (fun part => (0 <? String.length part)%nat)
                 (Js.split "/" pathname) in
        if (List.length pathParts <? List.length routeParts)%nat
        then Ok false
        else Ok (comparePartsFrom routeParts pathParts 0
                                  (List.length routeParts))
    else if Js.includes rp "*" then
      Ok (Js.startsWith fullPath (removeFirstStar rp))
    else if Js.startsWith rp "/^" && Js.endsWith rp "$/" then
      try_catch
        (let regexStr :=
           Js.substring rp 1 (Z.of_nat (String.length rp) - 1) in
         regex <- newRegExp regexStr ;;
         Ok (test regex fullPath))
        (fun _ => Ok false)
    else Ok false.

(** [findHandlerForUrl(url)] of [siteManager.js] *)
Definition findHandlerForUrl (siteConfigs : list Site) (url : string)
  : result (option Handler) :=
  try_catch
    (urlObj <- newURL url ;;
     let hostname := hostname urlObj in
     let pathname := pathname urlObj in
     let hash := hash urlObj in
     let fullPath := pathname ++ hash in
     match Js.find (fun site => hostMatches hostname (siteUrl site))
                   siteConfigs with
     | None => Ok None
     | Some site =>
         route <- findM (routeMatches fullPath pathname hash)
                        (routes site) ;;
         Ok (match route with
             | Some r => handler r
             | None => None
             end)
     end)
    (fun _ => Ok None).

Definition siteConfigs (handleAndfleet : Handler) : list Site :=
  [ {| siteUrl := "andfleet.cm-iov.com";
       routes := [ {| routePath := "/v1/evhe/#/order/";
                      handler := Some handleAndfleet |} ] |} ].

End SiteManager.

Arguments mkRoute {Handler}.
Arguments routePath {Handler} r.
Arguments handler {Handler} r.
Arguments mkSite {Handler}.
Arguments siteUrl {Handler} s.
Arguments routes {Handler} s.
Arguments routeMatches {P Handler} fullPath pathname hash route.
Arguments findHandlerForUrl {P Handler} siteConfigs url.
Arguments siteConfigs {Handler} handleAndfleet.

End Legacy.

(** ** The specification's reading of the parser

    Written from the specification's words, to be compared with
    [parseUrlParts]: cut at the first ["?"], then cut what follows at the
    first ["#"]; without a ["?"], cut at the first ["#"]. *)

Module Spec.

(** The text before the first [sep] and the text after it, when [sep]
    occurs. *)
Fixpoint cut (sep : ascii) (s : string) : option (string * string) :=
  match s with
  | EmptyString => None
  | String c s' =>
      if Ascii.eqb c sep then Some (EmptyString, s')
      else match cut sep s' with
           | Some (before, after) => Some (String c before, after)
           | None => None
           end
  end.

Definition parse (url : string) : UrlParts :=
  let '(p, q, f) :=
    match cut "?" url with
    | Some (p, remainder) =>
        match cut "#" remainder with
        | Some (q, f) => (p, q, "#" ++ f)
        | None => (p, remainder, "")
        end
    | None =>
        match cut "#" url with
        | Some (p, f) => (p, "", "#" ++ f)
        | None => (url, "", "")
        end
    end in
  {| path := p; query := q; hashPart := f;
     fullPathOf := p ++ (if Js.truthy q then "?" ++ q else "") ++ f |}.

(** [normalizedFullPath] of a URL: path, query and fragment.  The
    [search] of a URL object carries its leading ["?"] unless it is
    empty. *)
Definition normalizedFullPath (u : URL) : string :=
  pathname u ++ search u ++ hash u.

(** Pattern and path cut into non-empty segments; the pattern's
    segments are the first segments of the path, position by
    position. *)
Definition segments (s : string) : list string :=
  filter (fun piece => negb (String.eqb piece "")) (Js.split "/" s).

Definition segmentPrefix (pattern actual : list string) : Prop :=
  (List.length pattern <= List.length actual)%nat /\
  forall i, (i < List.length pattern)%nat ->
            nth_error pattern i = nth_error actual i.

(** The three hostname strategies of site selection. *)
Definition hostStrategies (h m : string) : Prop :=
  h = m \/
  (exists front, h = front ++ "." ++ m) \/
  (exists front back, h = front ++ m ++ back).

End Spec.

(** ** A small platform to run the definitions on

    [new URL] for absolute URLs of the shape
    [scheme://host/path?query#fragment] (no port, credentials or
    escapes), and [new RegExp] for patterns of literal characters,
    searched as a substring; a group that is opened and never closed is
    a syntax error. *)

Module Demo.

(** The part of [s] before the first unit satisfying [stop], and the
    rest from that unit on. *)
Fixpoint upTo (stop : ascii -> bool) (s : string) : string * string :=
  match s with
  | EmptyString => (EmptyString, EmptyString)
  | String c s' =>
      if stop c then (EmptyString, s)
      else let '(a, b) := upTo stop s' in (String c a, b)
  end.

Definition isOneOf (set : string) (c : ascii) : bool :=
  Js.includes set (String c EmptyString).

Definition parseURL (s : string) : result URL :=
  match String.index 0 "://" s with
  | None => Throw (TypeError "Invalid URL")
  | Some i =>
      let rest := String.substring (i + 3) (String.length s - (i + 3)) s in
      let '(host, r1) := upTo (isOneOf "/?#") rest in
      let '(p, r2) := upTo (isOneOf "?#") r1 in
      let '(q, f) := upTo (isOneOf "#") r2 in
      if String.eqb host "" then Throw (TypeError "Invalid URL")
      else Ok {| hostname := host;
                 pathname := if String.eqb p "" then "/" else p;
                 search := if String.eqb q "?" then "" else q;
                 hash := if String.eqb f "#" then "" else f |}
  end.

Definition compileRegExp (s : string) : result string :=
  if Js.includes s "(" && negb (Js.includes s ")")
  then Throw (SyntaxError "Unterminated group")
  else Ok s.

Definition platform : Platform :=
  {| RegExp := string;
     newRegExp := compileRegExp;
     test := fun r s => Js.includes s r;
     newURL := parseURL;
     slash_compiles := ex_intro _ "/" eq_refl |}.

Definition page : Page.t :=
  {| Page.title := "Orders"; Page.referrer := "";
     Page.hostname := "example.com"; Page.pathname := "/";
     Page.hash := ""; Page.search := "";
     Page.userAgent := "UA"; Page.language := "en";
     Page.platform := "Linux";
     Page.windowWidth := 1280; Page.windowHeight := 720;
     Page.screenWidth := 1920; Page.screenHeight := 1080;
     Page.documentReady := "complete" |}.

(** Handlers are named by strings here; they all return normally and
    signal nothing. *)
Definition invoke (h : string) (info : PageInfo) : HandlerRun :=
  {| signalled := []; outcome := Ok tt |}.

(** The same handlers, except that [handleA] moves the page on to
    [/b] with [history.pushState] before it returns. *)
Definition navigating (h : string) (info : PageInfo) : HandlerRun :=
  {| signalled :=
       if String.eqb h "handleA" then ["https://example.com/b"] else [];
     outcome := Ok tt |}.

Definition configs : list (Site string) :=
  [ {| siteUrl := "example.com";
       routes := [ {| routePath := "/^\/users\/(\d+$/";
                      matchType := Some "regex";
                      handler := Some "handleUsers" |};
                   {| routePath := "/a";
                      matchType := None;
                      handler := Some "handleA" |};
                   {| routePath := "/";
                      matchType := None;
                      handler := Some "handleAllPages" |} ] |} ].

End Demo.

(** ** Vocabulary for statements about runs *)

(** The URLs the site manager was asked about, oldest first. *)
Fixpoint consulted {Handler : Type} (tr : list (Effect Handler))
  : list (option string) :=
  match tr with
  | [] => []
  | FindHandlerCall u :: rest => u :: consulted rest
  | _ :: rest => consulted rest
  end.

(** The URLs signalled in a run, oldest first. *)
Fixpoint signalsOf (events : list Event) : list (option string) :=
  match events with
  | [] => []
  | Signal u :: rest => Some u :: signalsOf rest
  | Wait _ :: rest => signalsOf rest
  end.


(** [l] is [m] with some elements left out. *)
Inductive Subseq {A : Type} : list A -> list A -> Prop :=
| Subseq_nil : Subseq [] []
| Subseq_skip (x : A) (l m : list A) : Subseq l m -> Subseq l (x :: m)
| Subseq_keep (x : A) (l m : list A) : Subseq l m -> Subseq (x :: l) (x :: m).

(** Timing facts of the worlds a run passes through: the last
    processing is not in the future, and a scheduled timeout falls due
    within the debounce delay from now and no sooner than the repeat
    threshold after the last processing. *)
Definition OnTime {Handler : Type} (w : World Handler) : Prop :=
  (lastProcessTime (state w) <= now w)%Z /\
  forall h due,
    In (h, due) (timers w) ->
    (now w <= due <= now w + CONFIG.URL_PROCESS_DELAY)%Z /\
    (lastProcessTime (state w) + CONFIG.URL_REPEAT_THRESHOLD <= due)%Z.

(** What the script has done with the signals [sigs] received so far:
    the dispatched URLs are some of them, in order; while a timeout is
    pending, the last signal is the pending URL and is not among
    them. *)
Definition Accounted {Handler : Type} (w : World Handler)
           (sigs : list (option string)) : Prop :=
  match timers w with
  | [] => Subseq (dispatched (trace w)) sigs
  | _ :: _ =>
      exists earlier,
        sigs = (earlier ++ [pendingUrl (state w)])%list /\
        Subseq (dispatched (trace w)) earlier
  end.

(** Once no timeout is pending, the pending URL (if any) is the last
    one dispatched. *)
Definition Delivered {Handler : Type} (w : World Handler) : Prop :=
  timers w = [] ->
  pendingUrl (state w) = None \/
  exists before,
    dispatched (trace w) = (before ++ [pendingUrl (state w)])%list.

(** The part of a world that does not depend on the site manager and
    the handlers. *)
Definition core {Handler : Type} (w : World Handler)
  : State * Z * list (N * Z) * N * list (option string) :=
  (state w, now w, timers w, nextHandle w, dispatched (trace w)).


(** Nothing dispatched so far was dropped by the repeat check. *)
Definition Undropped {Handler : Type} (w : World Handler) : Prop :=
  Inv w /\ OnTime w /\ consulted (trace w) = dispatched (trace w).

(** A pending timeout falls due within the debounce delay, and without
    one the pending URL has been dispatched. *)
Definition Settling {Handler : Type} (w : World Handler) : Prop :=
  Inv w /\
  (forall h due, In (h, due) (timers w) ->
                 (due <= now w + CONFIG.URL_PROCESS_DELAY)%Z) /\
  Delivered w.

(** How many timeouts can still fire until the clock reaches
    [target], counted from a timeout due at [due]: none when it is not
    due by then; otherwise the timeout itself, and one more for every
    full delay left after it has fired (a timeout that fires leaves at
    most one new timeout behind, a full delay later). *)
Definition firings (clock target due : Z) : nat :=
  if (due <=? target)%Z
  then S (Z.to_nat ((target - Z.max clock due) / CONFIG.URL_PROCESS_DELAY))
  else 0%nat.

Definition load (clock target : Z) (l : list (N * Z)) : nat :=
  list_sum (map (fun t => firings clock target (snd t)) l).

(** ** URL monitor ([urlMonitor.js])

    [initUrlMonitor] replaces [history.pushState] and
    [history.replaceState] by functions that call the method they
    found and then [onUrlChange(window.location.href)], and adds a
    [popstate] listener that does the same.  A history method is
    therefore the browser's own or a wrapper around another one.
    Callbacks act on the state of their owner (for the content script,
    its [World]); the browser's method changes the location or throws
    (a URL of another origin). *)

Section UrlMonitor.

Variable Owner : Type.

Definition Callback : Type := string -> Owner -> Owner.

Inductive HistoryMethod : Type :=
| Native
| Wrapper (original : HistoryMethod) (onUrlChange : Callback).

Record Window : Type := mkWindow {
  href : string;
  pushState : HistoryMethod;
  replaceState : HistoryMethod;
  popstateListeners : list Callback;
  owner : Owner
}.

(** The location a native [pushState]/[replaceState] with this URL
    argument leads to from the current one, or the exception. *)
Variable navigate : string -> string -> result string.

Definition setHref (h : string) (w : Window) : Window :=
  {| href := h; pushState := pushState w; replaceState := replaceState w;
     popstateListeners := popstateListeners w; owner := owner w |}.

Definition notify (cb : Callback) (w : Window) : Window :=
  {| href := href w; pushState := pushState w;
     replaceState := replaceState w;
     popstateListeners := popstateListeners w;
     owner := cb (href w) (owner w) |}.

(** Calling a history method with a URL argument. *)
Fixpoint callHistory (m : HistoryMethod) (urlArg : string) (w : Window)
  : result Window :=
  match m with
  | Native =>
      h <- navigate (href w) urlArg ;;
      Ok (setHref h w)
  | Wrapper original onUrlChange =>
      w' <- callHistory original urlArg w ;;
      Ok (notify onUrlChange w')
  end.

(** [initUrlMonitor(onUrlChange, checkImmediately)]; [None] is an
    omitted second argument. *)
Definition initUrlMonitor (onUrlChange : Callback)
           (checkImmediately : option bool) (w : Window) : Window :=
  let checkImmediately :=
    match checkImmediately with
    | Some b => b
    | None => false
    end in
  let w :=
    {| href := href w;
       pushState := Wrapper (pushState w) onUrlChange;
       replaceState := Wrapper (replaceState w) onUrlChange;
       popstateListeners := (popstateListeners w ++ [onUrlChange])%list;
       owner := owner w |} in
  if checkImmediately then notify onUrlChange w else w.

(** The user goes back or forward to [h]: the [popstate] listeners run
    in the order they were added. *)
Definition popstate (h : string) (w : Window) : Window :=
  fold_left (fun w cb => notify cb w) (popstateListeners w) (setHref h w).

End UrlMonitor.

Arguments Native {Owner}.
Arguments Wrapper {Owner} original onUrlChange.
Arguments mkWindow {Owner}.
Arguments href {Owner} w.
Arguments pushState {Owner} w.
Arguments replaceState {Owner} w.
Arguments popstateListeners {Owner} w.
Arguments owner {Owner} w.
Arguments setHref {Owner} h w.
Arguments notify {Owner} cb w.
Arguments callHistory {Owner} navigate m urlArg w.
Arguments initUrlMonitor {Owner} onUrlChange checkImmediately w.
Arguments popstate {Owner} h w.

(** The page before any script has touched its history object. *)
Definition freshWindow {Owner : Type} (h : string) (o : Owner) : Window Owner :=
  {| href := h; pushState := Native; replaceState := Native;
     popstateListeners := []; owner := o |}.

(** * Properties *)

(** ** Strings *)

Section StringFacts.

Lemma append_empty_r (s : string) : s ++ "" = s.
Proof. induction s as [|c s IH]; simpl; [reflexivity | now rewrite IH]. Qed.

Lemma append_assoc (a b c : string) : (a ++ b) ++ c = a ++ (b ++ c).
Proof. induction a as [|x a IH]; simpl; [reflexivity | now rewrite IH]. Qed.

Lemma append_length (a b : string) :
  String.length (a ++ b) = (String.length a + String.length b)%nat.
Proof. induction a as [|x a IH]; simpl; [reflexivity | now rewrite IH]. Qed.

Lemma ascii_eqb_refl (c : ascii) : Ascii.eqb c c = true.
Proof. now apply Ascii.eqb_eq. Qed.

Lemma prefix_spec (t s : string) :
  String.prefix t s = true <-> exists back, s = t ++ back.
Proof.
  revert s; induction t as [|c t IH]; intros s; simpl.
  - split; [intros _; now exists s | intros _; now destruct s].
  - destruct s as [|d s].
    + split; [discriminate | intros [back H]; discriminate].
    + simpl. destruct (ascii_dec c d) as [->|ne].
      * rewrite IH. split; intros [back H]; exists back.
        -- now rewrite H.
        -- now inversion H.
      * split; [discriminate | intros [back H]; inversion H; congruence].
Qed.

Lemma includes_spec (s t : string) :
  Js.includes s t = true <-> exists front back, s = front ++ t ++ back.
Proof.
  induction s as [|c s IH]; cbn [Js.includes].
  - rewrite orb_false_r, prefix_spec. split.
    + intros [back H]. now exists "", back.
    + intros [front [back H]]. destruct front; simpl in H.
      * now exists back.
      * discriminate.
  - rewrite orb_true_iff, IH, prefix_spec. split.
    + intros [[back H] | [front [back H]]].
      * now exists "", back.
      * exists (String c front), back. simpl. now rewrite H.
    + intros [front [back H]]. destruct front as [|d front]; simpl in H.
      * left. now exists back.
      * right. inversion H. now exists front, back.
Qed.

Lemma substring_whole (s : string) :
  String.substring 0 (String.length s) s = s.
Proof. induction s as [|c s IH]; simpl; [reflexivity | now rewrite IH]. Qed.

Lemma substring_skip (a b : string) (n : nat) :
  String.substring (String.length a) n (a ++ b) = String.substring 0 n b.
Proof. induction a as [|c a IH]; simpl; [reflexivity | exact IH]. Qed.

Lemma substring_tail (s : string) (n : nat) :
  (n <= String.length s)%nat ->
  exists front,
    s = front ++ String.substring n (String.length s - n) s.
Proof.
  revert n; induction s as [|c s IH]; intros n Hn; simpl in *.
  - exists "". now destruct n.
  - destruct n as [|n].
    + exists "". simpl. now rewrite substring_whole.
    + destruct (IH n) as [front H]; [lia|].
      exists (String c front). simpl. now rewrite <- H.
Qed.

Lemma endsWith_spec (s t : string) :
  Js.endsWith s t = true <-> exists front, s = front ++ t.
Proof.
  unfold Js.endsWith. rewrite andb_true_iff, Nat.leb_le, String.eqb_eq.
  split.
  - intros [Hlen Hsub].
    destruct (substring_tail s (String.length s - String.length t))
      as [front H]; [lia|].
    exists front.
    replace (String.length s - (String.length s - String.length t))%nat
      with (String.length t) in H by lia.
    now rewrite Hsub in H.
  - intros [front ->]. rewrite append_length. split; [lia|].
    replace (String.length front + String.length t - String.length t)%nat
      with (String.length front) by lia.
    now rewrite substring_skip, substring_whole.
Qed.

Lemma strict_neq_false (x y : option string) :
  Js.strict_neq x y = false <-> x = y.
Proof.
  destruct x as [a|], y as [b|]; simpl; split; try congruence.
  - rewrite negb_false_iff, String.eqb_eq. congruence.
  - intros H. inversion H. now rewrite String.eqb_refl.
Qed.

Lemma find_ext {A : Type} (f g : A -> bool) (l : list A) :
  (forall x, f x = g x) -> Js.find f l = Js.find g l.
Proof.
  intros E. induction l as [|x l IH]; simpl; [reflexivity|].
  now rewrite E, IH.
Qed.

Lemma find_none {A : Type} (f : A -> bool) (l : list A) :
  (forall x, In x l -> f x = false) -> Js.find f l = None.
Proof.
  induction l as [|x l IH]; simpl; intros H; [reflexivity|].
  rewrite (H x) by now left. apply IH. intros y Hy. apply H. now right.
Qed.

End StringFacts.

(** ** Site selection *)

Section SiteSelection.

Context {Handler : Type}.

Lemma hostMatches_spec (h m : string) :
  hostMatches h m = true <-> Spec.hostStrategies h m.
Proof.
  unfold hostMatches, Spec.hostStrategies.
  now rewrite !orb_true_iff, String.eqb_eq, endsWith_spec, includes_spec,
    or_assoc.
Qed.

Lemma hostMatches_false (h m : string) :
  ~ Spec.hostStrategies h m -> hostMatches h m = false.
Proof.
  intros H. destruct (hostMatches h m) eqn:E; [|reflexivity].
  now apply hostMatches_spec in E.
Qed.

(** C10: the three-way test of site selection decides the same as its
    last clause alone, "the hostname contains the site's [url]":
    equality and the subdomain test are special cases of containment,
    so dropping them selects the same site from every registry, in
    both versions of the site manager. *)
Theorem site_selection_is_substring_check :
  (forall h m : string, hostMatches h m = Js.includes h m) /\
  (forall h m : string,
      Spec.hostStrategies h m <-> exists front back, h = front ++ m ++ back) /\
  (forall (h : string) (configs : list (Site Handler)),
      Js.find (siteMatches h) configs
      = Js.find (fun site => Js.includes h (siteUrl site)) configs) /\
  (forall (h : string) (configs : list (Legacy.Site Handler)),
      Js.find (fun site => hostMatches h (Legacy.siteUrl site)) configs
      = Js.find (fun site => Js.includes h (Legacy.siteUrl site)) configs).
Proof.
  assert (core : forall h m : string, hostMatches h m = Js.includes h m).
  { intros h m. unfold hostMatches. destruct (Js.includes h m) eqn:Inc.
    - apply orb_true_r.
    - rewrite orb_false_r.
      destruct (String.eqb h m) eqn:Eq; cbn [orb].
      + apply String.eqb_eq in Eq. subst h.
        assert (Js.includes m m = true) as Yes; [|congruence].
        apply includes_spec. exists "", "". simpl.
        now rewrite append_empty_r.
      + destruct (Js.endsWith h ("." ++ m)) eqn:End; [|reflexivity].
        apply endsWith_spec in End. destruct End as [front ->].
        assert (Js.includes (front ++ "." ++ m) m = true) as Yes;
          [|congruence].
        apply includes_spec. exists (front ++ "."), "".
        now rewrite append_empty_r, append_assoc. }
  split; [exact core|]. split; [|split].
  - intros h m. unfold Spec.hostStrategies. split.
    + intros [-> | [[front ->] | H]]; [| |exact H].
      * exists "", "". simpl. now rewrite append_empty_r.
      * exists (front ++ "."), "".
        now rewrite append_empty_r, append_assoc.
    + intros H. now right; right.
  - intros h configs. apply find_ext. intros site. apply core.
  - intros h configs. apply find_ext. intros site. apply core.
Qed.

End SiteSelection.

(** ** Route matching *)

Section RouteMatching.

Context {P : Platform} {Handler : Type}.

Lemma comparePartsFrom_spec (r u : list string) (n i : nat) :
  comparePartsFrom r u i n = true <->
  forall j, (i <= j < i + n)%nat -> Js.at_ r j = Js.at_ u j.
Proof.
  revert i; induction n as [|n IH]; intros i; simpl.
  - split; [intros _ j Hj; lia | reflexivity].
  - destruct (Js.strict_neq (Js.at_ r i) (Js.at_ u i)) eqn:E.
    + split; [discriminate|]. intros H.
      rewrite <- (H i) in E by lia.
      assert (Js.strict_neq (Js.at_ r i) (Js.at_ r i) = false) as F
          by now apply strict_neq_false.
      congruence.
    + apply strict_neq_false in E. rewrite IH. split; intros H j Hj.
      * destruct (Nat.eq_dec j i) as [->|ne]; [exact E | apply H; lia].
      * apply H; lia.
Qed.

Lemma matchPathPrefix_spec (pattern : string) (urlParts : UrlParts) :
  matchPathPrefix pattern urlParts = true <->
  Spec.segmentPrefix (Spec.segments pattern)
                     (Spec.segments (path urlParts)).
Proof.
  unfold matchPathPrefix, Spec.segmentPrefix.
  change (Js.filterBoolean (Js.split "/" pattern))
    with (Spec.segments pattern).
  change (Js.filterBoolean (Js.split "/" (path urlParts)))
    with (Spec.segments (path urlParts)).
  destruct (Nat.ltb_spec (List.length (Spec.segments (path urlParts)))
                         (List.length (Spec.segments pattern))) as [lt|ge].
  - split; [discriminate | intros [H _]; lia].
  - rewrite comparePartsFrom_spec. unfold Js.at_. split.
    + intros H. split; [exact ge|]. intros i Hi. apply H; lia.
    + intros [_ H] j Hj. apply H; lia.
Qed.

Lemma matchAllPages_true (pattern : string) :
  matchAllPages pattern = true <-> pattern = "/".
Proof. apply String.eqb_eq. Qed.

(** C4: a prefix rule matches exactly when the pattern's non-empty
    ["/"]-separated segments are, position by position, the first
    segments of the path; this is what decides a route whose
    [matchType] is ["pathPrefix"] or is not set.  ["/dashboard"] does
    not match ["/dashboard-extra"] and matches ["/dashboard/x"]. *)
Theorem path_prefix_matches_by_segments :
  (forall (pattern : string) (urlParts : UrlParts),
      matchPathPrefix pattern urlParts = true <->
      Spec.segmentPrefix (Spec.segments pattern)
                         (Spec.segments (path urlParts))) /\
  (forall (pattern fullPath : string) (h : option Handler),
      routeMatches fullPath
        {| routePath := pattern; matchType := Some "pathPrefix";
           handler := h |}
      = Ok (matchPathPrefix pattern (parseUrlParts fullPath)) /\
      routeMatches fullPath
        {| routePath := pattern; matchType := None; handler := h |}
      = Ok (matchPathPrefix pattern (parseUrlParts fullPath))) /\
  matchPathPrefix "/dashboard" (parseUrlParts "/dashboard-extra") = false /\
  matchPathPrefix "/dashboard" (parseUrlParts "/dashboard/x") = true.
Proof.
  split; [exact matchPathPrefix_spec|]. split; [|split; reflexivity].
  intros pattern fullPath h. unfold routeMatches, matchTypeIs. simpl.
  destruct (matchAllPages pattern) eqn:All; [|split; reflexivity].
  apply matchAllPages_true in All. subst pattern.
  split; reflexivity.
Qed.

(** *** Exceptions stay inside *)

Lemma matchRegex_total (pattern fullPath : string) :
  exists b, matchRegex pattern fullPath = Ok b.
Proof.
  unfold matchRegex, try_catch, bind.
  destruct (newRegExp _); eexists; reflexivity.
Qed.

Lemma routeMatches_total (fullPath : string) (route : Route Handler) :
  exists b, routeMatches fullPath route = Ok b.
Proof.
  unfold routeMatches.
  destruct (matchAllPages _); [eexists; reflexivity|].
  destruct (matchTypeIs route "exact"); [eexists; reflexivity|].
  destruct (matchTypeIs route "pathExact"); [eexists; reflexivity|].
  destruct (matchTypeIs route "regex"); [apply matchRegex_total|].
  eexists; reflexivity.
Qed.

Lemma findM_total {A : Type} (f : A -> result bool) (l : list A) :
  (forall x, exists b, f x = Ok b) -> exists r, findM f l = Ok r.
Proof.
  intros total. induction l as [|x l IH]; simpl.
  - eexists; reflexivity.
  - destruct (total x) as [[|] ->]; [eexists; reflexivity | exact IH].
Qed.

Lemma findM_skip {A : Type} (f : A -> result bool) (x : A)
      (before after : list A) :
  f x = Ok false ->
  findM f (before ++ x :: after)%list = findM f (before ++ after)%list.
Proof.
  intros Hx. induction before as [|y before IH]; simpl.
  - now rewrite Hx.
  - now rewrite IH.
Qed.

Lemma findM_first {A : Type} (f : A -> result bool) (x : A)
      (before after : list A) :
  (forall y, In y before -> f y = Ok false) ->
  f x = Ok true ->
  findM f (before ++ x :: after)%list = Ok (Some x).
Proof.
  intros Hb Hx. induction before as [|y before IH]; simpl.
  - now rewrite Hx.
  - rewrite (Hb y) by now left. apply IH. intros z Hz. apply Hb. now right.
Qed.

Lemma findM_none {A : Type} (f : A -> result bool) (l : list A) :
  (forall y, In y l -> f y = Ok false) -> findM f l = Ok None.
Proof.
  intros H. induction l as [|y l IH]; simpl; [reflexivity|].
  rewrite (H y) by now left. apply IH. intros z Hz. apply H. now right.
Qed.

Lemma find_first {A : Type} (f : A -> bool) (x : A) (before after : list A) :
  (forall y, In y before -> f y = false) ->
  f x = true ->
  Js.find f (before ++ x :: after)%list = Some x.
Proof.
  intros Hb Hx. induction before as [|y before IH]; simpl.
  - now rewrite Hx.
  - rewrite (Hb y) by now left. apply IH. intros z Hz. apply Hb. now right.
Qed.

Lemma findHandlerForUrl_total (configs : list (Site Handler)) (url : string) :
  exists r, findHandlerForUrl configs url = Ok r.
Proof.
  unfold findHandlerForUrl, try_catch.
  destruct (bind _ _); eexists; reflexivity.
Qed.

(** C5: [findHandlerForUrl] always returns.  A URL the platform
    rejects gives [null].  A ["regex"] rule whose pattern does not
    compile does not match, and the search goes on with the rules
    after it: the result is the one the list without that rule gives,
    and when the rules before it and up to a later rule [r] do not
    match and [r] does, it is [r] that is found and its handler that
    [findHandlerForUrl] returns. *)
Theorem findHandlerForUrl_contains_failures :
  (forall (configs : list (Site Handler)) (url : string),
      exists r, findHandlerForUrl configs url = Ok r) /\
  (forall (configs : list (Site Handler)) (url : string) (e : JsError),
      newURL url = Throw e -> findHandlerForUrl configs url = Ok None) /\
  (forall (pattern fullPath : string) (h : option Handler) (e : JsError),
      newRegExp
        (Js.substring pattern 1 (Z.of_nat (String.length pattern) - 1))
      = Throw e ->
      let rule := {| routePath := pattern; matchType := Some "regex";
                     handler := h |} in
      routeMatches fullPath rule = Ok false /\
      (forall (host : string) (before after : list (Route Handler))
              (pathname hash : string),
          findMatchingRoute
            {| siteUrl := host; routes := (before ++ rule :: after)%list |}
            fullPath pathname hash
          = findMatchingRoute
              {| siteUrl := host; routes := (before ++ after)%list |}
              fullPath pathname hash) /\
      (forall (host : string) (before between after : list (Route Handler))
              (r : Route Handler) (pathname hash : string),
          (forall x, In x before -> routeMatches fullPath x = Ok false) ->
          (forall x, In x between -> routeMatches fullPath x = Ok false) ->
          routeMatches fullPath r = Ok true ->
          findMatchingRoute
            {| siteUrl := host;
               routes := (before ++ rule :: between ++ r :: after)%list |}
            fullPath pathname hash
          = Ok (Some r)) /\
      (forall (configs : list (Site Handler)) (url : string) (u : URL)
              (site : Site Handler)
              (before between after : list (Route Handler))
              (r : Route Handler),
          newURL url = Ok u ->
          pathname u ++ hash u = fullPath ->
          Js.find (siteMatches (hostname u)) configs = Some site ->
          routes site = (before ++ rule :: between ++ r :: after)%list ->
          (forall x, In x before -> routeMatches fullPath x = Ok false) ->
          (forall x, In x between -> routeMatches fullPath x = Ok false) ->
          routeMatches fullPath r = Ok true ->
          findHandlerForUrl configs url = Ok (handler r))).
Proof.
  split; [exact findHandlerForUrl_total|]. split.
  - intros configs url e H. unfold findHandlerForUrl. now rewrite H.
  - intros pattern fullPath h e H rule.
    assert (routeMatches fullPath rule = Ok false) as No.
    { unfold routeMatches, rule, matchTypeIs. simpl.
      destruct (matchAllPages pattern) eqn:All.
      - apply matchAllPages_true in All. subst pattern.
        destruct slash_compiles as [regex Yes].
        simpl in H. unfold Js.substring in H. simpl in H. congruence.
      - unfold matchRegex. now rewrite H. }
    assert (forall (before between after : list (Route Handler))
                   (r : Route Handler),
               (forall x, In x before -> routeMatches fullPath x = Ok false) ->
               (forall x, In x between -> routeMatches fullPath x = Ok false) ->
               routeMatches fullPath r = Ok true ->
               findM (routeMatches fullPath)
                     (before ++ rule :: between ++ r :: after)%list
               = Ok (Some r)) as Later.
    { intros before between after r Hbefore Hbetween Hr.
      change (before ++ rule :: between ++ r :: after)%list
        with (before ++ (rule :: between) ++ r :: after)%list.
      rewrite app_assoc. apply findM_first; [|exact Hr].
      intros x Hx. apply in_app_or in Hx.
      destruct Hx as [Hx | [<- | Hx]]; [now apply Hbefore | exact No |].
      now apply Hbetween. }
    split; [exact No|]. split; [|split].
    + intros host before after pathname hash.
      unfold findMatchingRoute. simpl. now apply findM_skip.
    + intros host before between after r pathname hash Hb Hm Hr.
      unfold findMatchingRoute. simpl. now apply Later.
    + intros configs url u site before between after r
             Hu Hfull Hsite Hroutes Hb Hm Hr.
      unfold findHandlerForUrl. rewrite Hu. simpl. rewrite Hsite, Hfull.
      unfold findMatchingRoute. rewrite Hroutes.
      now rewrite (Later before between after r Hb Hm Hr).
Qed.

(** C6: when the hostname of the URL equals no site's [url], ends
    with no ["." + url] and contains no [url], no site is selected
    and the result is [null], in both versions of the site manager. *)
Theorem no_site_no_handler (url : string) (u : URL) :
  newURL url = Ok u ->
  (forall configs : list (Site Handler),
      (forall site, In site configs ->
                    ~ Spec.hostStrategies (hostname u) (siteUrl site)) ->
      findHandlerForUrl configs url = Ok None) /\
  (forall configs : list (Legacy.Site Handler),
      (forall site, In site configs ->
                    ~ Spec.hostStrategies (hostname u) (Legacy.siteUrl site)) ->
      Legacy.findHandlerForUrl configs url = Ok None).
Proof.
  intros Hu. split; intros configs none.
  - unfold findHandlerForUrl. rewrite Hu. simpl.
    rewrite find_none; [reflexivity|].
    intros site Hin. apply hostMatches_false. now apply none.
  - unfold Legacy.findHandlerForUrl. rewrite Hu. simpl.
    rewrite find_none; [reflexivity|].
    intros site Hin. apply hostMatches_false. now apply none.
Qed.

End RouteMatching.

(** ** Where the matcher departs from its documentation *)

Section Departures.

Context {P : Platform} {Handler : Type}.

Lemma routeMatches_exact (pattern fullPath : string) (h : option Handler) :
  routeMatches fullPath
    {| routePath := pattern; matchType := Some "exact"; handler := h |}
  = Ok (matchAllPages pattern || matchExact pattern fullPath).
Proof.
  unfold routeMatches, matchTypeIs. simpl.
  now destruct (matchAllPages pattern).
Qed.

(** C1: an ["exact"] rule is compared with [pathname + hash]; the
    query string of the URL never takes part.  For the URL with path
    ["/p"] and query ["?x=1"] the rule ["/p?x=1"], which equals path +
    query + fragment, does not match, and the rule ["/p"], which does
    not equal it, matches. *)
Theorem exact_rule_ignores_query :
  (forall (u : URL) (pattern : string) (h : option Handler),
      routeMatches (pathname u ++ hash u)
        {| routePath := pattern; matchType := Some "exact"; handler := h |}
      = Ok (String.eqb pattern "/"
            || String.eqb pattern (pathname u ++ hash u))) /\
  (forall h : option Handler,
      let u := {| hostname := "example.com"; pathname := "/p";
                  search := "?x=1"; hash := "" |} in
      Spec.normalizedFullPath u = "/p?x=1" /\
      routeMatches (pathname u ++ hash u)
        {| routePath := "/p?x=1"; matchType := Some "exact"; handler := h |}
      = Ok false /\
      routeMatches (pathname u ++ hash u)
        {| routePath := "/p"; matchType := Some "exact"; handler := h |}
      = Ok true) /\
  (forall h : Handler,
      newURL (Platform := Demo.platform) "https://example.com/p?x=1"
      = Ok {| hostname := "example.com"; pathname := "/p";
              search := "?x=1"; hash := "" |} /\
      findHandlerForUrl (P := Demo.platform)
        [ {| siteUrl := "example.com";
             routes := [ {| routePath := "/p?x=1";
                            matchType := Some "exact";
                            handler := Some h |} ] |} ]
        "https://example.com/p?x=1"
      = Ok None).
Proof.
  split; [|split].
  - intros u pattern h. apply routeMatches_exact.
  - intros h u. repeat split; reflexivity.
  - intros h. split; reflexivity.
Qed.

(** C2: a rule whose path is ["/"] matches every URL whatever its
    [matchType]: [matchAllPages] is asked first and looks at the path
    only.  With [matchType] ["exact"] or ["pathExact"] the rule
    still matches ["/a"], which the predicate of that [matchType]
    rejects. *)
Theorem root_rule_matches_despite_matchType :
  (forall (m : option string) (h : option Handler) (fullPath : string),
      routeMatches fullPath
        {| routePath := "/"; matchType := m; handler := h |}
      = Ok true) /\
  matchExact "/" "/a" = false /\
  matchPathExact "/" (parseUrlParts "/a") = false /\
  (forall h : Handler,
      findHandlerForUrl (P := Demo.platform)
        [ {| siteUrl := "example.com";
             routes := [ {| routePath := "/";
                            matchType := Some "exact";
                            handler := Some h |} ] |} ]
        "https://example.com/a"
      = Ok (Some h)).
Proof.
  repeat split; reflexivity.
Qed.

End Departures.

(** ** The parser *)

Section Parser.

Lemma cut_none_split (sep : ascii) (s : string) :
  Spec.cut sep s = None -> Js.split sep s = [s].
Proof.
  induction s as [|c s IH]; simpl; [reflexivity|].
  destruct (Ascii.eqb c sep); [discriminate|].
  destruct (Spec.cut sep s) as [[a b]|]; [discriminate|].
  intros _. now rewrite IH.
Qed.

Lemma cut_some_split (sep : ascii) (s a b : string) :
  Spec.cut sep s = Some (a, b) -> Js.split sep s = a :: Js.split sep b.
Proof.
  revert a; induction s as [|c s IH]; intros a; simpl; [discriminate|].
  destruct (Ascii.eqb c sep).
  - intros H. now inversion H.
  - destruct (Spec.cut sep s) as [[a' b']|]; [|discriminate].
    intros H. inversion H. subst. now rewrite (IH a' eq_refl).
Qed.

Lemma includes_unit (s : string) (c : ascii) :
  Js.includes s (String c "")
  = match Spec.cut c s with Some _ => true | None => false end.
Proof.
  induction s as [|d s IH]; [reflexivity|].
  cbn [Js.includes Spec.cut String.prefix]. rewrite IH.
  destruct (ascii_dec c d) as [->|ne].
  - rewrite ascii_eqb_refl. now destruct s.
  - destruct (Ascii.eqb_spec d c) as [->|_]; [congruence|].
    now destruct (Spec.cut c s) as [[a b]|].
Qed.

Lemma join_split (sep : ascii) (s : string) :
  Js.join (String sep "") (Js.split sep s) = s.
Proof.
  induction s as [|c s IH]; [reflexivity|].
  cbn [Js.split]. destruct (Ascii.eqb_spec c sep) as [->|ne].
  - destruct (Js.split sep s) as [|piece rest] eqn:E.
    + destruct s; simpl in E; [discriminate|].
      destruct (Ascii.eqb a sep); [discriminate|].
      destruct (Js.split sep s); discriminate.
    + cbn [Js.join] in *. now rewrite IH.
  - destruct (Js.split sep s) as [|piece rest] eqn:E.
    + destruct s; simpl in E; [discriminate|].
      destruct (Ascii.eqb a sep); [discriminate|].
      destruct (Js.split sep s); discriminate.
    + rewrite <- IH. now destruct rest.
Qed.

(** Where the parser and the specification's reading agree: on every
    input with at most one ["?"] and, behind it, at most one ["#"]; in
    particular on every input without a ["?"]. *)
Lemma parseUrlParts_agrees_with_spec (url : string) :
  (forall p r,
      Spec.cut "?" url = Some (p, r) ->
      Spec.cut "?" r = None /\
      forall q f, Spec.cut "#" r = Some (q, f) -> Spec.cut "#" f = None) ->
  parseUrlParts url = Spec.parse url.
Proof.
  intros once. unfold parseUrlParts, Spec.parse.
  destruct (Spec.cut "?" url) as [[p r]|] eqn:Q.
  - destruct (once p r eq_refl) as [Hr Hf].
    rewrite (cut_some_split _ _ _ _ Q), (cut_none_split _ _ Hr).
    cbn [List.length Nat.ltb Nat.leb Nat.eqb andb Js.get nth].
    destruct (Spec.cut "#" r) as [[q f]|] eqn:Hh.
    + rewrite (cut_some_split _ _ _ _ Hh),
        (cut_none_split _ _ (Hf q f eq_refl)).
      reflexivity.
    + rewrite (cut_none_split _ _ Hh). reflexivity.
  - rewrite (cut_none_split _ _ Q).
    cbn [List.length Nat.ltb Nat.leb Nat.eqb andb Js.get nth].
    rewrite includes_unit.
    destruct (Spec.cut "#" url) as [[p f]|] eqn:Hh.
    + rewrite (cut_some_split _ _ _ _ Hh).
      cbn [Js.get nth Js.slice1 tl]. now rewrite join_split.
    + reflexivity.
Qed.

(** C3: on ["/a#/b"], the path and fragment of ["https://x/a#/b"],
    the parser returns path ["/a"], an empty query and fragment
    ["#/b"].  But it keeps only the first two pieces of each
    [split]: on ["/a#/b?c=1?d=2"] the query is ["c=1"], not the text
    after the first ["?"], and on ["/a?b#c#d"] the fragment is ["#c"],
    not the text from the first ["#"] on. *)
Theorem parseUrlParts_drops_later_pieces :
  parseUrlParts "/a#/b"
  = {| path := "/a"; query := ""; hashPart := "#/b";
       fullPathOf := "/a#/b" |} /\
  newURL (Platform := Demo.platform) "https://x/a#/b?c=1?d=2"
  = Ok {| hostname := "x"; pathname := "/a"; search := "";
          hash := "#/b?c=1?d=2" |} /\
  parseUrlParts "/a#/b?c=1?d=2"
  = {| path := "/a#/b"; query := "c=1"; hashPart := "";
       fullPathOf := "/a#/b?c=1" |} /\
  Spec.parse "/a#/b?c=1?d=2"
  = {| path := "/a#/b"; query := "c=1?d=2"; hashPart := "";
       fullPathOf := "/a#/b?c=1?d=2" |} /\
  parseUrlParts "/a?b#c#d"
  = {| path := "/a"; query := "b"; hashPart := "#c";
       fullPathOf := "/a?b#c" |} /\
  Spec.parse "/a?b#c#d"
  = {| path := "/a"; query := "b"; hashPart := "#c#d";
       fullPathOf := "/a?b#c#d" |}.
Proof.
  repeat split; reflexivity.
Qed.

End Parser.

(** ** Instances of the conditional results *)

Lemma findHandlerForUrl_contains_failures_witness :
  findHandlerForUrl (P := Demo.platform) Demo.configs "not a url" = Ok None /\
  routeMatches (P := Demo.platform) "/a/b"
    {| routePath := "/^\/users\/(\d+$/"; matchType := Some "regex";
       handler := Some "handleUsers" |}
  = Ok false /\
  findHandlerForUrl (P := Demo.platform) Demo.configs "https://example.com/a/b"
  = Ok (Some "handleA").
Proof.
  destruct (@findHandlerForUrl_contains_failures Demo.platform string)
    as [_ [rejected uncompiled]].
  split; [|split].
  - apply (rejected Demo.configs "not a url" (TypeError "Invalid URL")).
    reflexivity.
  - refine (proj1 (uncompiled "/^\/users\/(\d+$/" "/a/b" (Some "handleUsers")
                              (SyntaxError "Unterminated group") _)).
    vm_compute. reflexivity.
  - assert (newRegExp (Platform := Demo.platform)
              (Js.substring "/^\/users\/(\d+$/" 1
                 (Z.of_nat (String.length "/^\/users\/(\d+$/") - 1))
            = Throw (SyntaxError "Unterminated group")) as Bad
        by (vm_compute; reflexivity).
    destruct (uncompiled "/^\/users\/(\d+$/" "/a/b" (Some "handleUsers")
                         (SyntaxError "Unterminated group") Bad)
      as (_ & _ & _ & later).
    apply (later Demo.configs "https://example.com/a/b"
             {| hostname := "example.com"; pathname := "/a/b"; search := "";
                hash := "" |}
             {| siteUrl := "example.com";
                routes := [ {| routePath := "/^\/users\/(\d+$/";
                               matchType := Some "regex";
                               handler := Some "handleUsers" |};
                            {| routePath := "/a"; matchType := None;
                               handler := Some "handleA" |};
                            {| routePath := "/"; matchType := None;
                               handler := Some "handleAllPages" |} ] |}
             [] []
             [ {| routePath := "/"; matchType := None;
                  handler := Some "handleAllPages" |} ]
             {| routePath := "/a"; matchType := None;
                handler := Some "handleA" |});
      try reflexivity; intros x [].
Defined.

Lemma no_site_no_handler_witness :
  findHandlerForUrl (P := Demo.platform) Demo.configs "https://other.org/a"
  = Ok None.
Proof.
  apply (@no_site_no_handler Demo.platform string "https://other.org/a"
           {| hostname := "other.org"; pathname := "/a"; search := "";
              hash := "" |}).
  - reflexivity.
  - intros site [<- | []] H.
    apply hostMatches_spec in H.
    vm_compute in H. discriminate H.
Defined.

(** ** The debounced dispatcher *)

Section Dispatcher.

Context {Handler : Type}.
Variable SiteManager : option (option string -> result (option Handler)).
Variable invoke : Handler -> PageInfo -> HandlerRun.

Local Abbreviation World := (World Handler).
Local Abbreviation process := (processUrlChange SiteManager invoke).
Local Abbreviation callback := (timerCallback SiteManager invoke).
Local Abbreviation dispatchTo := (dispatch SiteManager invoke).
Local Abbreviation fireTimer := (fire SiteManager invoke).
Local Abbreviation advanceTo := (advance SiteManager invoke).
Local Abbreviation execute := (exec SiteManager invoke).
Local Abbreviation runAll := (run SiteManager invoke).

Lemma strict_eq_refl (v : option string) : strict_eq v v = true.
Proof. destruct v; simpl; [apply String.eqb_refl | reflexivity]. Qed.

Lemma dispatched_app (a b : list (Effect Handler)) :
  dispatched (a ++ b)%list = (dispatched a ++ dispatched b)%list.
Proof.
  induction a as [|e a IH]; simpl; [reflexivity|].
  destruct e; simpl; now rewrite IH.
Qed.

(** What a signal leaves alone: the record of the last processing,
    the clock, the page and the trace. *)
Lemma handleUrlChange_keeps (u : string) (w : World) :
  lastProcessedUrl (state (handleUrlChange u w)) = lastProcessedUrl (state w) /\
  lastProcessTime (state (handleUrlChange u w)) = lastProcessTime (state w) /\
  now (handleUrlChange u w) = now w /\
  thePage (handleUrlChange u w) = thePage w /\
  trace (handleUrlChange u w) = trace w.
Proof.
  unfold handleUrlChange.
  destruct (timerTruthy _); [destruct (urlChangeTimer _)|]; now repeat split.
Qed.

Lemma signalAll_keeps (urls : list string) (w : World) :
  lastProcessedUrl (state (signalAll urls w)) = lastProcessedUrl (state w) /\
  lastProcessTime (state (signalAll urls w)) = lastProcessTime (state w) /\
  now (signalAll urls w) = now w /\
  thePage (signalAll urls w) = thePage w /\
  trace (signalAll urls w) = trace w.
Proof.
  revert w; induction urls as [|u urls IH]; intros w; [now repeat split|].
  change (signalAll (u :: urls) w) with (signalAll urls (handleUrlChange u w)).
  destruct (IH (handleUrlChange u w)) as (A & B & C & D & E).
  destruct (handleUrlChange_keeps u w) as (A' & B' & C' & D' & E').
  rewrite A, B, C, D, E. now repeat split.
Qed.

(** C8: [processUrlChange] on the URL it processed last, less than
    the repeat threshold ago, only writes its console line: the state
    is untouched and neither the site manager nor a handler is
    called.  Once the threshold has passed the same URL goes through:
    the site manager is asked and the handler it returns is called
    with a fresh [pageInfo]. *)
Theorem repeat_within_threshold_is_dropped :
  (forall (w : World) (u : option string),
      lastProcessedUrl (state w) = u ->
      (now w - lastProcessTime (state w) < CONFIG.URL_REPEAT_THRESHOLD)%Z ->
      process u w = emit (LogProcessing u) w) /\
  (forall (w : World) (u : option string)
          (findHandler : option string -> result (option Handler))
          (h : Handler),
      SiteManager = Some findHandler ->
      findHandler u = Ok (Some h) ->
      lastProcessedUrl (state w) = u ->
      (CONFIG.URL_REPEAT_THRESHOLD <= now w - lastProcessTime (state w))%Z ->
      lastProcessTime (state (process u w)) = now w /\
      exists after,
        trace (process u w)
        = (trace w
             ++ [LogProcessing u; FindHandlerCall u;
                 HandlerCall h {| url := u; page := thePage w;
                                  timestamp := now w |}]
             ++ after)%list).
Proof.
  split.
  - intros w u Hu Hlt. unfold processUrlChange. cbn [state now emit].
    rewrite Hu, strict_eq_refl.
    destruct (Z.ltb_spec (now w - lastProcessTime (state w))
                         CONFIG.URL_REPEAT_THRESHOLD) as [_|ge]; [|lia].
    reflexivity.
  - intros w u findHandler h HS Hf Hu Hge.
    unfold processUrlChange. cbn [state now emit].
    rewrite Hu, strict_eq_refl.
    destruct (Z.ltb_spec (now w - lastProcessTime (state w))
                         CONFIG.URL_REPEAT_THRESHOLD) as [lt|_]; [lia|].
    cbn [andb]. unfold dispatch. rewrite HS, Hf.
    cbn [thePage emit withState trace]. cbv zeta.
    match goal with
    | |- context [signalAll ?l ?x] =>
        destruct (signalAll_keeps l x) as (_ & Ht & _ & _ & Htr);
        set (ran := signalAll l x) in *
    end.
    destruct (outcome (invoke h _));
      [|unfold emit; cbn [state trace]];
      rewrite Ht, Htr; unfold emit, withState;
      cbn [state trace lastProcessTime].
    + split; [reflexivity|]. exists []. now rewrite <- !app_assoc.
    + split; [reflexivity|]. eexists [LogError _].
      now rewrite <- !app_assoc.
Qed.

(** A signal in a world that satisfies the invariant: the pending
    timeout, if any, is cleared, and one new timeout is scheduled. *)
Lemma handleUrlChange_inv (url : string) (w : World) :
  Inv w ->
  handleUrlChange url w
  = {| state := {| lastProcessedUrl := lastProcessedUrl (state w);
                   lastProcessTime := lastProcessTime (state w);
                   contentScriptLoaded := contentScriptLoaded (state w);
                   urlChangeTimer := Some (nextHandle w);
                   pendingUrl := Some url |};
       now := now w;
       timers := [(nextHandle w, (now w + CONFIG.URL_PROCESS_DELAY)%Z)];
       nextHandle := nextHandle w + 1;
       thePage := thePage w;
       trace := trace w |}.
Proof.
  destruct w as [[lp lt cl ut pu] nw tm nh pg tr].
  unfold Inv. simpl. intros [Hnh H].
  unfold handleUrlChange. simpl.
  destruct ut as [h|].
  - destruct H as [[Hpos Hlt] [due ->]]. simpl.
    destruct (N.eqb_spec h 0) as [->|_]; [lia|]. simpl.
    now rewrite N.eqb_refl.
  - subst tm. reflexivity.
Qed.

Lemma handleUrlChange_pendingUrl (url : string) (w : World) :
  pendingUrl (state (handleUrlChange url w)) = Some url.
Proof.
  unfold handleUrlChange.
  destruct (timerTruthy _); [destruct (urlChangeTimer _)|]; reflexivity.
Qed.

Lemma advance_no_timer (fuel : nat) (target : Z) (w : World) :
  timers w = [] ->
  advanceTo fuel target w = setNow (Z.max (now w) target) w.
Proof.
  intros H. destruct fuel; cbn [advance]; [reflexivity|]. now rewrite H.
Qed.

Lemma wait_no_timer (ms : N) (w : World) :
  timers w = [] -> execute w (Wait ms) = setNow (now w + Z.of_N ms) w.
Proof.
  intros H. unfold exec. rewrite (advance_no_timer _ _ w H).
  rewrite Z.max_r by lia. reflexivity.
Qed.

Lemma wait_not_due (ms : N) (w : World) (h : N) (due : Z) :
  timers w = [(h, due)] -> (now w + Z.of_N ms < due)%Z ->
  execute w (Wait ms) = setNow (now w + Z.of_N ms) w.
Proof.
  intros H early. unfold exec, waitFuel. rewrite H.
  cbn [List.length Nat.mul Nat.add advance].
  rewrite H. unfold nextDue. cbn [filter snd].
  destruct (Z.leb_spec due (now w + Z.of_N ms)) as [late|_]; [lia|].
  cbn [earliest]. rewrite Z.max_r by lia. reflexivity.
Qed.

Lemma Inv_setNow (t : Z) (w : World) : Inv w -> Inv (setNow t w).
Proof. exact (fun H => H). Qed.

Lemma Inv_initial (t0 : Z) (pg : Page.t) : Inv (initialWorld (Handler := Handler) t0 pg).
Proof. unfold Inv. simpl. split; [lia | reflexivity]. Qed.

Lemma Inv_signal (w : World) (u : string) : Inv w -> Inv (handleUrlChange u w).
Proof.
  intros I. rewrite (handleUrlChange_inv u w I).
  destruct I as [Hnh _]. unfold Inv. simpl.
  split; [lia|]. split; [lia|]. eexists; reflexivity.
Qed.

(** *** Every timeout that falls due fires

    Handlers may signal here.  A timeout that fires leaves the table;
    the signals of the handler it reaches clear one another's
    timeouts, so at most one new timeout is left, due a full delay
    after the firing.  [load] therefore goes down with every firing,
    and [waitFuel] is enough for all of them. *)

Lemma load_cons (c T : Z) (t : N * Z) (l : list (N * Z)) :
  load c T (t :: l) = (firings c T (snd t) + load c T l)%nat.
Proof. reflexivity. Qed.

Lemma load_app (c T : Z) (l m : list (N * Z)) :
  load c T (l ++ m)%list = (load c T l + load c T m)%nat.
Proof. unfold load. now rewrite map_app, list_sum_app. Qed.

Lemma load_filter (c T : Z) (f : N * Z -> bool) (l : list (N * Z)) :
  (load c T (filter f l) <= load c T l)%nat.
Proof.
  induction l as [|t l IH]; [apply Nat.le_refl|].
  cbn [filter]. destruct (f t); rewrite ?load_cons; lia.
Qed.

Lemma load_without (c T : Z) (t : N * Z) (l : list (N * Z)) :
  In t l ->
  (load c T (filter (fun x => negb (N.eqb (fst x) (fst t))) l)
   + firings c T (snd t) <= load c T l)%nat.
Proof.
  induction l as [|x l IH]; intros H; [destruct H|].
  destruct H as [E|H].
  - subst x. cbn [filter]. rewrite N.eqb_refl. cbn [negb].
    pose proof (load_filter c T
                  (fun x => negb (N.eqb (fst x) (fst t))) l) as F.
    rewrite load_cons. lia.
  - specialize (IH H). cbn [filter].
    destruct (negb _); rewrite ?load_cons; lia.
Qed.

Lemma firings_mono (c c' T d : Z) :
  (c <= c')%Z -> (firings c' T d <= firings c T d)%nat.
Proof.
  intros H. unfold firings. destruct (d <=? T)%Z; [|apply Nat.le_refl].
  match goal with
  | |- (S (Z.to_nat ?a) <= S (Z.to_nat ?b))%nat =>
      assert (a <= b)%Z
        by (apply Z.div_le_mono; [unfold CONFIG.URL_PROCESS_DELAY|]; lia)
  end.
  lia.
Qed.

Lemma load_mono (c c' T : Z) (l : list (N * Z)) :
  (c <= c')%Z -> (load c' T l <= load c T l)%nat.
Proof.
  intros H. induction l as [|t l IH]; [apply Nat.le_refl|].
  pose proof (firings_mono c c' T (snd t) H).
  rewrite !load_cons. lia.
Qed.

Lemma load_due (c T : Z) (l : list (N * Z)) (t : N * Z) :
  In t l -> (snd t <= T)%Z -> (1 <= load c T l)%nat.
Proof.
  intros H L. pose proof (load_without c T t l H) as X.
  unfold firings in X. destruct (Z.leb_spec (snd t) T); lia.
Qed.

Lemma earliest_in (l : list (N * Z)) (t : N * Z) :
  earliest l = Some t -> In t l.
Proof.
  revert t; induction l as [|x l IH]; intros t; cbn [earliest];
    [discriminate|].
  destruct (earliest l) as [t'|]; intros E; injection E as <-.
  - destruct (earlier x t'); [now left | right; now apply IH].
  - now left.
Qed.

Lemma earliest_none (l : list (N * Z)) : earliest l = None -> l = [].
Proof.
  destruct l as [|x l]; [reflexivity|]. cbn [earliest].
  destruct (earliest l); discriminate.
Qed.

Lemma nextDue_in (T : Z) (l : list (N * Z)) (t : N * Z) :
  nextDue T l = Some t -> In t l /\ (snd t <= T)%Z.
Proof.
  unfold nextDue. intros E. apply earliest_in, filter_In in E.
  destruct E as [H L]. split; [exact H | now apply Z.leb_le].
Qed.

Lemma nextDue_none (T : Z) (l : list (N * Z)) :
  nextDue T l = None -> forall t, In t l -> (T < snd t)%Z.
Proof.
  unfold nextDue. intros E t H. apply earliest_none in E.
  destruct (Z.leb_spec (snd t) T) as [le|gt]; [|exact gt].
  assert (In t (filter (fun t => (snd t <=? T)%Z) l)) as X
      by (apply filter_In; split; [exact H | now apply Z.leb_le]).
  rewrite E in X. destruct X.
Qed.

(** A signal in any world: the timeout [state.urlChangeTimer] names
    is cleared, others stay, and one is added. *)
Lemma handleUrlChange_timers (u : string) (x : World) :
  exists kept,
    timers (handleUrlChange u x)
    = (kept ++ [(nextHandle x, (now x + CONFIG.URL_PROCESS_DELAY)%Z)])%list /\
    (forall c T, (load c T kept <= load c T (timers x))%nat) /\
    (forall l h d,
        timers x = (l ++ [(h, d)])%list ->
        urlChangeTimer (state x) = Some h -> h <> 0%N ->
        kept = filter (fun t => negb (N.eqb (fst t) h)) l) /\
    urlChangeTimer (state (handleUrlChange u x)) = Some (nextHandle x) /\
    nextHandle (handleUrlChange u x) = (nextHandle x + 1)%N.
Proof.
  destruct x as [[lp lt cl ut pu] nw tm nh pg tr].
  unfold handleUrlChange. cbn. destruct ut as [h|]; cbn.
  - destruct (N.eqb_spec h 0) as [->|Hh]; cbn.
    + exists tm. repeat split; [intros; apply Nat.le_refl|].
      intros l h d _ E Hn. congruence.
    + exists (filter (fun t => negb (N.eqb (fst t) h)) tm).
      repeat split; [intros; apply load_filter|].
      intros l h' d -> E _. injection E as <-.
      rewrite filter_app. cbn. rewrite N.eqb_refl. cbn.
      now rewrite app_nil_r.
  - exists tm. repeat split; [intros; apply Nat.le_refl|].
    intros l h d _ E. discriminate E.
Qed.

Lemma signalAll_tail (urls : list string) (c T : Z) :
  forall (x : World) (l : list (N * Z)) (h : N) (d : Z),
    timers x = (l ++ [(h, d)])%list ->
    urlChangeTimer (state x) = Some h ->
    (0 < h < nextHandle x)%N ->
    d = (now x + CONFIG.URL_PROCESS_DELAY)%Z ->
    exists l' h',
      timers (signalAll urls x) = (l' ++ [(h', d)])%list /\
      (load c T l' <= load c T l)%nat /\
      (0 < nextHandle (signalAll urls x))%N.
Proof.
  induction urls as [|u urls IH]; intros x l h d Ht Hu Hh Hd.
  - exists l, h. cbn [signalAll fold_left].
    split; [exact Ht|]. split; [apply Nat.le_refl | lia].
  - change (signalAll (u :: urls) x)
      with (signalAll urls (handleUrlChange u x)).
    destruct (handleUrlChange_timers u x) as (kept & Hk & _ & Hl & Hu' & Hn').
    destruct (handleUrlChange_keeps u x) as (_ & _ & Hnow & _ & _).
    assert (h <> 0%N) as Hz by lia.
    rewrite (Hl l h d Ht Hu Hz) in Hk.
    destruct (IH (handleUrlChange u x)
                 (filter (fun t => negb (N.eqb (fst t) h)) l)
                 (nextHandle x) d) as (l' & h' & A & B & C).
    + rewrite Hk. now rewrite Hd.
    + exact Hu'.
    + rewrite Hn'. lia.
    + now rewrite Hnow.
    + exists l', h'. split; [exact A|]. split; [|exact C].
      pose proof (load_filter c T (fun t => negb (N.eqb (fst t) h)) l). lia.
Qed.

Lemma signalAll_load (urls : list string) (x : World) (c T : Z) :
  (0 < nextHandle x)%N ->
  (load c T (timers (signalAll urls x))
   <= load c T (timers x)
      + firings c T (now x + CONFIG.URL_PROCESS_DELAY))%nat /\
  (0 < nextHandle (signalAll urls x))%N.
Proof.
  intros H. destruct urls as [|u urls].
  - cbn [signalAll fold_left]. split; [lia | exact H].
  - change (signalAll (u :: urls) x)
      with (signalAll urls (handleUrlChange u x)).
    destruct (handleUrlChange_timers u x) as (kept & Hk & Hle & _ & Hu' & Hn').
    destruct (handleUrlChange_keeps u x) as (_ & _ & Hnow & _ & _).
    destruct (signalAll_tail urls c T (handleUrlChange u x) kept (nextHandle x)
                (now x + CONFIG.URL_PROCESS_DELAY)%Z)
      as (l' & h' & A & B & C).
    + exact Hk.
    + exact Hu'.
    + rewrite Hn'. lia.
    + now rewrite Hnow.
    + split; [|exact C]. rewrite A, load_app.
      specialize (Hle c T). rewrite load_cons. cbn [snd].
      change (load c T []) with 0%nat. lia.
Qed.

Lemma dispatch_load (url : option string) (t : Z) (w : World) (c T : Z) :
  (0 < nextHandle w)%N ->
  (load c T (timers (dispatchTo url t w))
   <= load c T (timers w)
      + firings c T (now w + CONFIG.URL_PROCESS_DELAY))%nat /\
  (0 < nextHandle (dispatchTo url t w))%N /\
  now (dispatchTo url t w) = now w.
Proof.
  intros H. unfold dispatch.
  destruct SiteManager as [findHandler|]; [|split; [lia | now split]].
  destruct (findHandler url) as [[h|]|e]; cbv zeta;
    [|cbn [emit timers now nextHandle]; split; [lia | now split] ..].
  match goal with
  | |- context [signalAll ?l ?x] =>
      destruct (signalAll_load l x c T H) as [L P];
      destruct (signalAll_keeps l x) as (_ & _ & Hn & _ & _);
      set (ran := signalAll l x) in *
  end.
  cbn [emit timers now nextHandle] in L, Hn.
  destruct (outcome (invoke h _)); cbn [emit timers now nextHandle];
    (split; [exact L | split; [exact P | exact Hn]]).
Qed.

Lemma timerCallback_load (w : World) (c T : Z) :
  (0 < nextHandle w)%N ->
  (load c T (timers (callback w))
   <= load c T (timers w)
      + firings c T (now w + CONFIG.URL_PROCESS_DELAY))%nat /\
  (0 < nextHandle (callback w))%N /\
  now (callback w) = now w.
Proof.
  intros H. unfold timerCallback, setUrlChangeTimer, withState.
  cbn [timers nextHandle now]. unfold processUrlChange.
  destruct (strict_eq _ _ && _);
    [cbn [emit timers now nextHandle]; split; [lia | now split]|].
  match goal with
  | |- context [dispatchTo ?u ?t ?x] =>
      destruct (dispatch_load u t x c T H) as (L & P & Hn)
  end.
  cbn [emit withState timers now nextHandle] in L, Hn.
  split; [exact L | split; [exact P | exact Hn]].
Qed.

Lemma fire_load (t : N * Z) (w : World) (T : Z) :
  In t (timers w) -> (snd t <= T)%Z -> (0 < nextHandle w)%N ->
  (load (now (fireTimer t w)) T (timers (fireTimer t w))
   < load (now w) T (timers w))%nat /\
  (0 < nextHandle (fireTimer t w))%N /\
  now (fireTimer t w) = Z.max (now w) (snd t).
Proof.
  intros Hin Hdue H. unfold fire.
  set (c := Z.max (now w) (snd t)).
  set (x := clearTimeout (fst t) (setNow c w)).
  destruct (timerCallback_load x c T H) as (L & P & Hn).
  rewrite Hn. change (now x) with c in *.
  split; [|split; [exact P | reflexivity]].
  pose proof (load_without c T t (timers w) Hin) as W.
  pose proof (load_mono (now w) c T (timers w) (Z.le_max_l _ _)) as M.
  change (timers x)
    with (filter (fun y => negb (N.eqb (fst y) (fst t))) (timers w)) in L.
  assert (firings c T (c + CONFIG.URL_PROCESS_DELAY)
          < firings c T (snd t))%nat as Less.
  { unfold firings. destruct (Z.leb_spec (snd t) T) as [_|gt]; [|lia].
    replace (Z.max c (snd t)) with c by (unfold c; lia).
    unfold CONFIG.URL_PROCESS_DELAY.
    destruct (Z.leb_spec (c + 2000) T) as [le|_]; [|lia].
    replace (Z.max c (c + 2000)) with (c + 2000)%Z by lia.
    replace (T - (c + 2000))%Z with ((T - c) + (-1) * 2000)%Z by lia.
    rewrite Z.div_add by lia.
    assert (1 <= (T - c) / 2000)%Z by (apply Z.div_le_lower_bound; lia).
    lia. }
  lia.
Qed.

Lemma advance_complete (T : Z) (fuel : nat) :
  forall w : World,
    (0 < nextHandle w)%N -> (now w <= T)%Z ->
    (load (now w) T (timers w) <= fuel)%nat ->
    now (advanceTo fuel T w) = T /\
    (0 < nextHandle (advanceTo fuel T w))%N /\
    nextDue T (timers (advanceTo fuel T w)) = None.
Proof.
  induction fuel as [|fuel IH]; intros w H Hnow Hload.
  - cbn [advance setNow now nextHandle timers].
    split; [lia|]. split; [exact H|].
    destruct (nextDue T (timers w)) as [t|] eqn:E; [|reflexivity].
    destruct (nextDue_in T _ t E) as [Hin Hdue].
    pose proof (load_due (now w) T _ t Hin Hdue). lia.
  - cbn [advance]. destruct (nextDue T (timers w)) as [t|] eqn:E.
    + destruct (nextDue_in T _ t E) as [Hin Hdue].
      destruct (fire_load t w T Hin Hdue H) as (L & P & Hn).
      apply IH; [exact P | rewrite Hn; lia | lia].
    + cbn [setNow now nextHandle timers].
      split; [lia|]. split; [exact H | exact E].
Qed.

Lemma waitFuel_enough (w : World) (ms : N) :
  (load (now w) (now w + Z.of_N ms) (timers w) <= waitFuel w ms)%nat.
Proof.
  unfold waitFuel.
  set (k := S (Z.to_nat (Z.of_N ms / CONFIG.URL_PROCESS_DELAY))).
  induction (timers w) as [|t l IH]; [apply Nat.le_refl|].
  assert (firings (now w) (now w + Z.of_N ms) (snd t) <= k)%nat as F.
  { unfold firings, k. destruct (snd t <=? now w + Z.of_N ms)%Z; [|lia].
    match goal with
    | |- (S (Z.to_nat ?a) <= S (Z.to_nat ?b))%nat =>
        assert (a <= b)%Z
          by (apply Z.div_le_mono; [unfold CONFIG.URL_PROCESS_DELAY|]; lia)
    end.
    lia. }
  rewrite load_cons. cbn [List.length Nat.mul]. lia.
Qed.

(** Waiting lets the clock reach its target, and every timeout that
    falls due on the way fires, also the ones scheduled by the
    handlers that run meanwhile: what is left is due later. *)
Lemma wait_fires_all_due (w : World) (ms : N) :
  (0 < nextHandle w)%N ->
  now (execute w (Wait ms)) = (now w + Z.of_N ms)%Z /\
  (0 < nextHandle (execute w (Wait ms)))%N /\
  forall t, In t (timers (execute w (Wait ms))) ->
            (now w + Z.of_N ms < snd t)%Z.
Proof.
  intros H. cbn [exec].
  destruct (advance_complete (now w + Z.of_N ms) (waitFuel w ms) w H)
    as (A & B & C); [lia | apply waitFuel_enough |].
  split; [exact A|]. split; [exact B|]. now apply nextDue_none.
Qed.

Lemma run_nextHandle (events : list Event) (w : World) :
  (0 < nextHandle w)%N -> (0 < nextHandle (runAll events w))%N.
Proof.
  revert w; induction events as [|e events IH]; intros w H; [exact H|].
  change (runAll (e :: events) w) with (runAll events (execute w e)).
  apply IH. destruct e as [u|ms].
  - cbn [exec].
    destruct (handleUrlChange_timers u w) as (_ & _ & _ & _ & _ & ->). lia.
  - now apply wait_fires_all_due.
Qed.

(** In every run from the start of the script, with any handlers. *)
Lemma run_fires_all_due (events : list Event) (t0 : Z) (pg : Page.t) (ms : N) :
  let w := runAll events (initialWorld t0 pg) in
  now (execute w (Wait ms)) = (now w + Z.of_N ms)%Z /\
  forall t, In t (timers (execute w (Wait ms))) ->
            (now (execute w (Wait ms)) < snd t)%Z.
Proof.
  intros w.
  destruct (wait_fires_all_due w ms) as (A & _ & C).
  { apply run_nextHandle. reflexivity. }
  split; [exact A|]. intros t Ht. rewrite A. now apply C.
Qed.

(** *** Handlers that signal nothing

    From here on the handlers only return or throw: the signals of a
    run are the ones its events name. *)

Hypothesis handlersQuiet : Quiet invoke.

(** What a dispatch leaves alone: everything but the trace, to which
    it adds no [LogProcessing]. *)
Lemma dispatch_frame (url : option string) (t : Z) (w : World) :
  state (dispatchTo url t w) = state w /\
  now (dispatchTo url t w) = now w /\
  timers (dispatchTo url t w) = timers w /\
  nextHandle (dispatchTo url t w) = nextHandle w /\
  thePage (dispatchTo url t w) = thePage w /\
  dispatched (trace (dispatchTo url t w)) = dispatched (trace w).
Proof.
  unfold dispatch.
  destruct SiteManager as [findHandler|]; [|now repeat split].
  destruct (findHandler url) as [[h|]|e]; cbv zeta.
  - rewrite handlersQuiet. cbn [signalAll fold_left].
    destruct (outcome (invoke h _)); simpl; repeat split;
      rewrite ?dispatched_app; simpl; now rewrite ?app_nil_r.
  - simpl. repeat split. rewrite dispatched_app. simpl. now rewrite app_nil_r.
  - simpl. repeat split. rewrite !dispatched_app. simpl.
    now rewrite !app_nil_r.
Qed.

Lemma processUrlChange_frame (url : option string) (w : World) :
  urlChangeTimer (state (process url w)) = urlChangeTimer (state w) /\
  pendingUrl (state (process url w)) = pendingUrl (state w) /\
  now (process url w) = now w /\
  timers (process url w) = timers w /\
  nextHandle (process url w) = nextHandle w /\
  dispatched (trace (process url w))
  = (dispatched (trace w) ++ [url])%list.
Proof.
  unfold processUrlChange.
  destruct (strict_eq url _ && _).
  - simpl. repeat split. rewrite dispatched_app. reflexivity.
  - match goal with
    | |- context [dispatchTo ?u ?t ?x] =>
        destruct (dispatch_frame u t x) as (Hs & Hn & Ht & Hh & _ & Hd)
    end.
    rewrite Hs, Hn, Ht, Hh, Hd. simpl. repeat split.
    rewrite dispatched_app. reflexivity.
Qed.

Lemma timerCallback_frame (w : World) :
  urlChangeTimer (state (callback w)) = None /\
  pendingUrl (state (callback w)) = pendingUrl (state w) /\
  now (callback w) = now w /\
  timers (callback w) = timers w /\
  nextHandle (callback w) = nextHandle w /\
  dispatched (trace (callback w))
  = (dispatched (trace w) ++ [pendingUrl (state w)])%list.
Proof.
  unfold timerCallback.
  destruct (processUrlChange_frame (pendingUrl (state w)) w)
    as (_ & Hp & Hn & Ht & Hh & Hd).
  simpl. now repeat split.
Qed.

Lemma wait_due (ms : N) (w : World) (h : N) (due : Z) :
  timers w = [(h, due)] -> (due <= now w + Z.of_N ms)%Z ->
  execute w (Wait ms)
  = setNow (now w + Z.of_N ms)
      (callback (clearTimeout h (setNow (Z.max (now w) due) w))).
Proof.
  intros H late. unfold exec, waitFuel. rewrite H.
  cbn [List.length Nat.mul Nat.add advance].
  rewrite H. unfold nextDue. cbn [filter snd].
  destruct (Z.leb_spec due (now w + Z.of_N ms)) as [_|early]; [|lia].
  cbn [earliest]. unfold fire. cbn [fst snd].
  destruct (timerCallback_frame
              (clearTimeout h (setNow (Z.max (now w) due) w)))
    as (_ & _ & Hn & Ht & _).
  rewrite advance_no_timer.
  - rewrite Hn. cbn [now clearTimeout setNow].
    rewrite Z.max_r by lia. reflexivity.
  - rewrite Ht. cbn [timers clearTimeout setNow]. rewrite H.
    cbn [filter fst]. now rewrite N.eqb_refl.
Qed.

Lemma Inv_exec (w : World) (e : Event) : Inv w -> Inv (execute w e).
Proof.
  intros I. destruct e as [u|ms].
  - now apply Inv_signal.
  - pose proof I as [Hnh H].
    destruct (urlChangeTimer (state w)) as [h|] eqn:Ut.
    + destruct H as [Hh [due Htm]].
      destruct (Z.le_gt_cases due (now w + Z.of_N ms)) as [late|early].
      * rewrite (wait_due ms w h due Htm late). apply Inv_setNow.
        match goal with
        | |- Inv (callback ?x) =>
            destruct (timerCallback_frame x) as (Hu & _ & _ & Ht & Hn & _)
        end.
        unfold Inv. rewrite Hu, Ht, Hn. simpl. rewrite Htm. simpl.
        rewrite N.eqb_refl. simpl. now split.
      * rewrite (wait_not_due ms w h due Htm); [|lia].
        now apply Inv_setNow.
    + rewrite (wait_no_timer ms w H). now apply Inv_setNow.
Qed.

Lemma Inv_run (events : list Event) (w : World) : Inv w -> Inv (runAll events w).
Proof.
  revert w; induction events as [|e events IH]; intros w I.
  - exact I.
  - change (runAll (e :: events) w) with (runAll events (execute w e)).
    apply IH. now apply Inv_exec.
Qed.

Lemma advance_pendingUrl (fuel : nat) (target : Z) (w : World) :
  pendingUrl (state (advanceTo fuel target w)) = pendingUrl (state w).
Proof.
  revert w; induction fuel as [|fuel IH]; intros w; simpl.
  - reflexivity.
  - destruct (nextDue target (timers w)) as [t|]; [|reflexivity].
    rewrite IH. unfold fire.
    match goal with
    | |- pendingUrl (state (callback ?x)) = _ =>
        destruct (timerCallback_frame x) as (_ & Hp & _)
    end.
    now rewrite Hp.
Qed.

Lemma run_pendingUrl (events : list Event) (w : World) :
  pendingUrl (state (runAll events w))
  = lastSignal events (pendingUrl (state w)).
Proof.
  revert w; induction events as [|e events IH]; intros w.
  - reflexivity.
  - change (runAll (e :: events) w) with (runAll events (execute w e)).
    rewrite IH. destruct e as [u|ms]; cbn [lastSignal exec].
    + now rewrite handleUrlChange_pendingUrl.
    + now rewrite advance_pendingUrl.
Qed.

Lemma fire_clears (t : N * Z) (w : World) :
  urlChangeTimer (state (fireTimer t w)) = None /\
  timers (fireTimer t w)
  = filter (fun t' => negb (N.eqb (fst t') (fst t))) (timers w).
Proof.
  unfold fire.
  match goal with
  | |- context [callback ?x] =>
      destruct (timerCallback_frame x) as (Hu & _ & _ & Ht & _)
  end.
  rewrite Hu, Ht. now split.
Qed.

(** With handlers that signal nothing the invariant holds when the
    script starts and every signal and every passage of time keeps
    it: at most one timeout is scheduled, and it is the one
    [state.urlChangeTimer] names; [state.pendingUrl] is the URL of the
    most recent signal. *)
Lemma invariant_with_quiet_handlers :
  (forall (t0 : Z) (pg : Page.t),
      Inv (initialWorld (Handler := Handler) t0 pg)) /\
  (forall (w : World) (e : Event), Inv w -> Inv (execute w e)) /\
  (forall (events : list Event) (t0 : Z) (pg : Page.t),
      Inv (runAll events (initialWorld t0 pg))) /\
  (forall w : World,
      Inv w ->
      (List.length (timers w) <= 1)%nat /\
      (urlChangeTimer (state w) = None <-> timers w = [])) /\
  (forall (w : World) (u : string),
      Inv w ->
      timers (handleUrlChange u w)
      = [(nextHandle w, (now w + CONFIG.URL_PROCESS_DELAY)%Z)] /\
      urlChangeTimer (state (handleUrlChange u w)) = Some (nextHandle w)) /\
  (forall (w : World) (t : N * Z),
      urlChangeTimer (state (fireTimer t w)) = None /\
      timers (fireTimer t w)
      = filter (fun t' => negb (N.eqb (fst t') (fst t))) (timers w)) /\
  (forall (w : World) (u : string),
      pendingUrl (state (handleUrlChange u w)) = Some u) /\
  (forall (events : list Event) (w : World),
      pendingUrl (state (runAll events w))
      = lastSignal events (pendingUrl (state w))).
Proof.
  split; [exact Inv_initial|].
  split; [exact Inv_exec|].
  split; [intros events t0 pg; apply Inv_run, Inv_initial|].
  split.
  { intros w [_ H]. destruct (urlChangeTimer (state w)) as [h|].
    - destruct H as [_ [due ->]]. simpl.
      split; [lia|]. split; discriminate.
    - rewrite H. simpl. split; [lia|]. now split. }
  split.
  { intros w u I. rewrite (handleUrlChange_inv u w I). now split. }
  split; [intros w t; apply fire_clears|].
  split; [intros w u; apply handleUrlChange_pendingUrl|].
  exact run_pendingUrl.
Qed.


End Dispatcher.

(** ** Instances of the dispatcher results *)


Lemma repeat_within_threshold_is_dropped_witness :
  let SM := installedSiteManager (P := Demo.platform) Demo.configs in
  let u := Some "https://example.com/a" in
  let at_ (t : Z) : World string :=
    {| state := {| lastProcessedUrl := u; lastProcessTime := 1000;
                   contentScriptLoaded := true; urlChangeTimer := None;
                   pendingUrl := u |};
       now := t; timers := []; nextHandle := 2; thePage := Demo.page;
       trace := [] |} in
  processUrlChange SM Demo.invoke u (at_ 1500%Z)
  = emit (LogProcessing u) (at_ 1500%Z) /\
  lastProcessTime (state (processUrlChange SM Demo.invoke u (at_ 3500%Z)))
  = 3500%Z.
Proof.
  intros SM u at_.
  destruct (repeat_within_threshold_is_dropped SM Demo.invoke)
    as [dropped passed].
  split.
  - apply dropped; reflexivity.
  - refine (proj1 (passed (at_ 3500%Z) u _ "handleA" eq_refl _ eq_refl _)).
    + reflexivity.
    + discriminate.
Defined.

(** C9: a handler that signals while it runs breaks the invariant.
    The handler of [/a] moves the page on to [/b] with
    [history.pushState]: [handleUrlChange] runs inside the timer
    callback and schedules a timeout, and when the handler has
    returned the callback sets [state.urlChangeTimer] to [null].  The
    invariant held before the timeout fired and does not hold after
    it: the handle is [null] while a timeout is scheduled.  The next
    signal, for [/c], therefore clears nothing, and two timeouts are
    scheduled at once.  Both fire with the pending URL [/c]: [/b] is
    never dispatched, [/c] is dispatched twice, and the repeat check
    drops the second of them.  [state.pendingUrl] is the URL of the
    most recent signal throughout. *)
Theorem reentrant_signal_leaves_two_timers :
  let SM := installedSiteManager (P := Demo.platform) Demo.configs in
  let start := initialWorld (Handler := string) 0 Demo.page in
  let a := "https://example.com/a" in
  let b := "https://example.com/b" in
  let c := "https://example.com/c" in
  let armed := run SM Demo.navigating [Signal a] start in
  let fired := run SM Demo.navigating [Signal a; Wait 2000] start in
  let again :=
    run SM Demo.navigating [Signal a; Wait 2000; Wait 500; Signal c] start in
  let settled :=
    run SM Demo.navigating
        [Signal a; Wait 2000; Wait 500; Signal c; Wait 2000] start in
  Inv armed /\
  timers fired = [(2%N, 4000%Z)] /\
  urlChangeTimer (state fired) = None /\
  pendingUrl (state fired) = Some b /\
  ~ Inv fired /\
  timers again = [(2%N, 4000%Z); (3%N, 4500%Z)] /\
  urlChangeTimer (state again) = Some 3%N /\
  pendingUrl (state again) = Some c /\
  ~ Inv again /\
  dispatched (trace settled) = [Some a; Some c; Some c] /\
  consulted (trace settled) = [Some a; Some c] /\
  timers settled = [].
Proof.
  intros SM start a b c armed fired again settled.
  split; [split; [reflexivity | split; [split; reflexivity|]];
          eexists; reflexivity|].
  repeat (split; [reflexivity|]).
  split.
  { intros [_ H]. vm_compute in H. discriminate H. }
  repeat (split; [reflexivity|]).
  split.
  { intros [_ H]. vm_compute in H. destruct H as [_ [due H]].
    discriminate H. }
  repeat split; reflexivity.
Qed.

(** ** Worked examples *)

(** Rules are tried in order: with [/a] before the catch-all [/], the
    path [/a/b] goes to the first rule and [/b] to the second; the rule
    in front of them, whose pattern does not compile, is passed over. *)
Example rules_are_tried_in_order :
  findHandlerForUrl (P := Demo.platform) Demo.configs "https://example.com/a/b"
  = Ok (Some "handleA") /\
  findHandlerForUrl (P := Demo.platform) Demo.configs "https://example.com/b"
  = Ok (Some "handleAllPages").
Proof. split; reflexivity. Qed.

(** The registry shipped with the extension, on an order page: the
    earlier site manager compares [pathname + hash] with the route as a
    string prefix and finds the handler; the current one cuts the
    fragment off before it compares segments and finds none. *)
Example shipped_registry_on_order_page :
  Legacy.findHandlerForUrl (P := Demo.platform)
    (Legacy.siteConfigs "handleAndfleet")
    "https://andfleet.cm-iov.com/v1/evhe/#/order/12"
  = Ok (Some "handleAndfleet") /\
  findHandlerForUrl (P := Demo.platform) (siteConfigs "handleAndfleet")
    "https://andfleet.cm-iov.com/v1/evhe/#/order/12"
  = Ok None.
Proof. split; reflexivity. Qed.

(** A whole run of the content script: a burst of two signals, then
    the same URL again after the first dispatch.  Two dispatches, both
    for the second URL, 2000 ms after the signal each. *)
Example run_of_three_signals :
  let SM := installedSiteManager (P := Demo.platform) Demo.configs in
  let w := run SM Demo.invoke
               [Signal "https://example.com/a"; Wait 100;
                Signal "https://example.com/b"; Wait 2000;
                Signal "https://example.com/b"; Wait 2500]
               (initialWorld 1000 Demo.page) in
  dispatched (trace w)
  = [Some "https://example.com/b"; Some "https://example.com/b"] /\
  lastProcessTime (state w) = 5100%Z /\
  now w = 5600%Z /\
  timers w = [].
Proof. repeat split; reflexivity. Qed.

(** * Further properties of the site manager *)

Section MoreStrings.

Lemma substring_prefix (p q : string) :
  String.substring 0 (String.length p) (p ++ q) = p.
Proof.
  induction p as [|c p IH]; simpl; [now destruct q | now rewrite IH].
Qed.

Lemma dropLast_unit (p : string) (c : ascii) :
  Js.dropLast (p ++ String c "") = p.
Proof.
  unfold Js.dropLast. rewrite append_length. simpl.
  replace (String.length p + 1 - 1)%nat with (String.length p) by lia.
  apply substring_prefix.
Qed.

Lemma endsWith_unit (p : string) (c : ascii) :
  Js.endsWith (p ++ String c "") (String c "") = true.
Proof. apply endsWith_spec. now exists p. Qed.

Lemma eqb_longer (p q : string) :
  q <> "" -> String.eqb (p ++ q) p = false.
Proof.
  intros Hq. apply String.eqb_neq. intros E.
  apply (f_equal String.length) in E. rewrite append_length in E.
  destruct q; [congruence | simpl in E; lia].
Qed.

Lemma split_nonempty (sep : ascii) (s : string) : Js.split sep s <> [].
Proof.
  destruct s as [|c s]; simpl; [discriminate|].
  destruct (Ascii.eqb c sep); [discriminate|].
  destruct (Js.split sep s); discriminate.
Qed.

Lemma split_app (sep : ascii) (a b : string) :
  Js.split sep (a ++ String sep b)
  = (Js.split sep a ++ Js.split sep b)%list.
Proof.
  induction a as [|c a IH]; simpl.
  - now rewrite ascii_eqb_refl.
  - destruct (Ascii.eqb c sep); [now rewrite IH|].
    rewrite IH. destruct (Js.split sep a) as [|piece rest] eqn:E.
    + now apply split_nonempty in E.
    + reflexivity.
Qed.

Lemma segments_app (a b : string) :
  Spec.segments (a ++ "/" ++ b)
  = (Spec.segments a ++ Spec.segments b)%list.
Proof.
  unfold Spec.segments. change ("/" ++ b) with (String "/" b).
  now rewrite split_app, filter_app.
Qed.

Lemma segments_trailing_slash (p : string) :
  Spec.segments (p ++ "/") = Spec.segments p.
Proof.
  change (p ++ "/") with (p ++ "/" ++ "").
  rewrite segments_app. apply app_nil_r.
Qed.

Lemma segmentPrefix_extend (rs us more : list string) :
  Spec.segmentPrefix rs us -> Spec.segmentPrefix rs (us ++ more)%list.
Proof.
  intros [Hlen Hnth]. split.
  - rewrite length_app. lia.
  - intros i Hi. rewrite (Hnth i Hi). symmetry. apply nth_error_app1. lia.
Qed.

End MoreStrings.

Section MoreRouteMatching.

Context {P : Platform} {Handler : Type}.

(** X1: [matchPathExact] strips one trailing ["/"] from the rule and
    one from the path before it compares them: a rule and a path that
    do not end in ["/"] give the same answer with or without a slash
    appended to either.  A second slash is not stripped. *)
Theorem matchPathExact_strips_one_slash (p q : string) :
  Js.endsWith p "/" = false ->
  Js.endsWith q "/" = false ->
  forall parts slashed : UrlParts,
    path parts = q ->
    path slashed = q ++ "/" ->
    matchPathExact p parts = String.eqb p q /\
    matchPathExact (p ++ "/") parts = String.eqb p q /\
    matchPathExact p slashed = String.eqb p q /\
    matchPathExact (p ++ "/") slashed = String.eqb p q /\
    matchPathExact (p ++ "//") {| path := p; query := query parts;
                                  hashPart := hashPart parts;
                                  fullPathOf := fullPathOf parts |}
    = false.
Proof.
  intros Hp Hq parts slashed Hparts Hslashed.
  unfold matchPathExact. rewrite Hparts, Hslashed. cbn [path].
  rewrite Hp, Hq, !endsWith_unit, !dropLast_unit.
  repeat split; try reflexivity.
  change (p ++ "//") with (p ++ String "/" "/").
  replace (p ++ String "/" "/") with ((p ++ "/") ++ "/")
    by now rewrite append_assoc.
  rewrite endsWith_unit, dropLast_unit. now apply eqb_longer.
Qed.

(** X2: a prefix rule does not see empty segments and keeps matching
    when the path goes deeper: a trailing ["/"] on the rule changes
    nothing, a path that matches still matches with ["/" + more]
    appended, and the empty rule matches every path. *)
Theorem matchPathPrefix_slashes_and_depth :
  (forall (p : string) (parts : UrlParts),
      matchPathPrefix (p ++ "/") parts = matchPathPrefix p parts) /\
  (forall (p q more : string) (parts deeper : UrlParts),
      path parts = q ->
      path deeper = q ++ "/" ++ more ->
      matchPathPrefix p parts = true ->
      matchPathPrefix p deeper = true) /\
  (forall parts : UrlParts, matchPathPrefix "" parts = true).
Proof.
  split; [|split].
  - intros p parts. unfold matchPathPrefix.
    change (Js.filterBoolean (Js.split "/" (p ++ "/")))
      with (Spec.segments (p ++ "/")).
    change (Js.filterBoolean (Js.split "/" p)) with (Spec.segments p).
    now rewrite segments_trailing_slash.
  - intros p q more parts deeper Hparts Hdeeper.
    rewrite !matchPathPrefix_spec, Hparts, Hdeeper, segments_app.
    apply segmentPrefix_extend.
  - intros parts. reflexivity.
Qed.

Lemma substring_inside (a b : ascii) (body : string) :
  Js.substring (String a (body ++ String b "")) 1
    (Z.of_nat (String.length (String a (body ++ String b ""))) - 1)
  = body.
Proof.
  unfold Js.substring. cbn [String.length]. rewrite append_length.
  cbn [String.length].
  set (n := String.length body).
  replace (Z.min (Z.max 1 0) (Z.of_nat (S (n + 1)))) with 1%Z by lia.
  replace (Z.min (Z.max (Z.of_nat (S (n + 1)) - 1) 0) (Z.of_nat (S (n + 1))))
    with (Z.of_nat n + 1)%Z by lia.
  replace (Z.min 1 (Z.of_nat n + 1)) with 1%Z by lia.
  replace (Z.max 1 (Z.of_nat n + 1)) with (Z.of_nat n + 1)%Z by lia.
  replace (Z.to_nat (Z.of_nat n + 1 - 1)) with n by lia.
  change (Z.to_nat 1) with 1%nat. cbn [String.substring].
  apply substring_prefix.
Qed.

Lemma string_ends (a : ascii) (s : string) :
  exists (body : string) (b : ascii), String a s = body ++ String b "".
Proof.
  revert a. induction s as [|c s IH]; intros a.
  - now exists "", a.
  - destruct (IH c) as (body & b & E). exists (String a body), b.
    cbn [append]. now rewrite E.
Qed.

(** X3: [matchRegex] never throws, and what it compiles is settled by
    the rule alone.  A rule of two units or more loses its first and
    its last unit, whatever they are, and what is between them is
    compiled.  A rule of one unit is compiled whole: the bounds
    [substring(1, 0)] are swapped.  The empty rule compiles the empty
    pattern.  Every rule is of one of these three shapes.  In each case
    the answer is the test of the compiled expression on the full path,
    and [false] when the text does not compile. *)
Theorem matchRegex_compiles_the_inside :
  let compiled (text fullPath : string) : result bool :=
    match newRegExp text with
    | Ok regex => Ok (test regex fullPath)
    | Throw _ => Ok false
    end in
  (forall rule fullPath : string,
      exists answer : bool, matchRegex rule fullPath = Ok answer) /\
  (forall (a b : ascii) (body fullPath : string),
      matchRegex (String a (body ++ String b "")) fullPath
      = compiled body fullPath) /\
  (forall (a : ascii) (fullPath : string),
      matchRegex (String a "") fullPath = compiled (String a "") fullPath) /\
  (forall fullPath : string, matchRegex "" fullPath = compiled "" fullPath) /\
  (forall rule : string,
      rule = "" \/
      (exists a : ascii, rule = String a "") \/
      (exists (a b : ascii) (body : string),
          rule = String a (body ++ String b ""))).
Proof.
  cbv zeta. split; [|split; [|split; [|split]]].
  - intros rule fullPath. unfold matchRegex.
    destruct (newRegExp _); cbn; eauto.
  - intros a b body fullPath. unfold matchRegex. rewrite substring_inside.
    now destruct (newRegExp body).
  - intros a fullPath. unfold matchRegex.
    change (Js.substring (String a "")
              1 (Z.of_nat (String.length (String a "")) - 1))
      with (String a "").
    now destruct (newRegExp (String a "")).
  - intros fullPath. unfold matchRegex.
    change (Js.substring "" 1 (Z.of_nat (String.length "") - 1)) with "".
    now destruct (newRegExp "").
  - intros [|a [|c rest]]; [now left | right; left; now exists a |].
    right; right. destruct (string_ends c rest) as (body & b & E).
    exists a, b, body. now rewrite E.
Qed.

(** X4: within the selected site the first route that matches decides,
    whatever comes after it: the result is that route's [handler]
    property, also when the property is empty. *)
Theorem first_matching_route_decides
        (configs : list (Site Handler)) (url : string) (u : URL)
        (site : Site Handler) (before after : list (Route Handler))
        (r : Route Handler) :
  newURL url = Ok u ->
  Js.find (siteMatches (hostname u)) configs = Some site ->
  routes site = (before ++ r :: after)%list ->
  (forall x, In x before ->
             routeMatches (pathname u ++ hash u) x = Ok false) ->
  routeMatches (pathname u ++ hash u) r = Ok true ->
  findHandlerForUrl configs url = Ok (handler r).
Proof.
  intros Hu Hsite Hroutes Hbefore Hr.
  unfold findHandlerForUrl. rewrite Hu. simpl. rewrite Hsite.
  unfold findMatchingRoute. rewrite Hroutes.
  now rewrite (findM_first _ r before after Hbefore Hr).
Qed.

(** X5: only the first site whose [url] passes the host test is
    consulted.  When none of its routes matches, the result is [null],
    whatever sites follow it in the registry. *)
Theorem later_sites_are_not_consulted
        (url : string) (u : URL)
        (earlier later : list (Site Handler)) (site : Site Handler) :
  newURL url = Ok u ->
  (forall s, In s earlier -> siteMatches (hostname u) s = false) ->
  siteMatches (hostname u) site = true ->
  (forall r, In r (routes site) ->
             routeMatches (pathname u ++ hash u) r = Ok false) ->
  findHandlerForUrl (earlier ++ site :: later)%list url = Ok None.
Proof.
  intros Hu Hearlier Hsite Hroutes.
  unfold findHandlerForUrl. rewrite Hu. simpl.
  rewrite (find_first _ site earlier later Hearlier Hsite).
  unfold findMatchingRoute. now rewrite (findM_none _ _ Hroutes).
Qed.

End MoreRouteMatching.

(** * Further properties of the parser *)

Section MoreParser.

Lemma cut_before (sep : ascii) (s a b : string) :
  Spec.cut sep s = Some (a, b) ->
  Spec.cut sep a = None /\ s = a ++ String sep b.
Proof.
  revert a; induction s as [|c s IH]; intros a; simpl; [discriminate|].
  destruct (Ascii.eqb_spec c sep) as [->|ne].
  - intros H. inversion H. now split.
  - destruct (Spec.cut sep s) as [[a' b']|]; [|discriminate].
    intros H. inversion H. subst. destruct (IH a' eq_refl) as [Ha Hs].
    simpl. destruct (Ascii.eqb_spec c sep) as [|_]; [contradiction|].
    rewrite Ha. split; [reflexivity | now rewrite Hs].
Qed.

Lemma cut_app_none (sep : ascii) (a b : string) :
  Spec.cut sep a = None ->
  Spec.cut sep (a ++ b)
  = match Spec.cut sep b with
    | Some (x, y) => Some (a ++ x, y)
    | None => None
    end.
Proof.
  induction a as [|c a IH]; simpl.
  - intros _. now destruct (Spec.cut sep b) as [[x y]|].
  - destruct (Ascii.eqb c sep); [discriminate|].
    destruct (Spec.cut sep a) as [[x y]|]; [discriminate|].
    intros _. rewrite (IH eq_refl).
    now destruct (Spec.cut sep b) as [[x y]|].
Qed.

Lemma cut_app_none_inv (sep : ascii) (a b : string) :
  Spec.cut sep (a ++ b) = None -> Spec.cut sep a = None.
Proof.
  induction a as [|c a IH]; simpl; [reflexivity|].
  destruct (Ascii.eqb c sep); [discriminate|].
  destruct (Spec.cut sep (a ++ b)) as [[x y]|] eqn:E; [discriminate|].
  intros _. now rewrite (IH eq_refl).
Qed.

Lemma path_of_queried (url a b : string) :
  Spec.cut "?" url = Some (a, b) -> path (parseUrlParts url) = a.
Proof.
  intros Q. unfold parseUrlParts.
  rewrite (cut_some_split _ _ _ _ Q).
  destruct (Js.split "?" b) as [|piece rest] eqn:E;
    [now apply split_nonempty in E|].
  reflexivity.
Qed.

Lemma parseUrlParts_unqueried (p h : string) :
  Spec.cut "?" p = None -> Spec.cut "#" p = None ->
  Spec.cut "?" h = None ->
  (h = "" \/ exists r, h = "#" ++ r) ->
  parseUrlParts (p ++ h)
  = {| path := p; query := ""; hashPart := h; fullPathOf := p ++ h |}.
Proof.
  intros Hp Hp' Hh Hshape.
  assert (Spec.cut "?" (p ++ h) = None) as Q
      by now rewrite (cut_app_none _ _ _ Hp), Hh.
  rewrite parseUrlParts_agrees_with_spec
    by (intros a b E; congruence).
  unfold Spec.parse. rewrite Q, (cut_app_none _ _ _ Hp').
  destruct Hshape as [-> | [r ->]]; simpl.
  - now rewrite !append_empty_r.
  - rewrite ?append_empty_r. reflexivity.
Qed.

(** X6: parsing what was put together gives the parts back.  A path
    without ["?"] and ["#"] followed by a fragment without ["?"] is
    split into exactly these two; with a non-empty query between them
    (no ["?"], no ["#"], and none in the fragment after its leading
    ["#"]) the three parts come back, and [fullPath] is the input. *)
Theorem parseUrlParts_of_assembled :
  (forall p h : string,
      Spec.cut "?" p = None -> Spec.cut "#" p = None ->
      Spec.cut "?" h = None ->
      (h = "" \/ exists r, h = "#" ++ r) ->
      parseUrlParts (p ++ h)
      = {| path := p; query := ""; hashPart := h; fullPathOf := p ++ h |}) /\
  (forall p q h : string,
      Spec.cut "?" p = None ->
      q <> "" -> Spec.cut "?" q = None -> Spec.cut "#" q = None ->
      (h = "" \/
       exists r, h = "#" ++ r /\ Spec.cut "?" r = None
                 /\ Spec.cut "#" r = None) ->
      parseUrlParts (p ++ "?" ++ q ++ h)
      = {| path := p; query := q; hashPart := h;
           fullPathOf := p ++ "?" ++ q ++ h |}).
Proof.
  split; [exact parseUrlParts_unqueried|].
  - intros p q h Hp Hq Hq1 Hq2 Hshape.
    assert (Spec.cut "?" h = None) as Hh.
    { destruct Hshape as [-> | [r [-> [Hr _]]]]; simpl; [reflexivity|].
      now rewrite Hr. }
    assert (Spec.cut "?" (p ++ "?" ++ q ++ h) = Some (p, q ++ h)) as Q.
    { rewrite (cut_app_none _ _ _ Hp). simpl. now rewrite append_empty_r. }
    assert (Spec.cut "?" (q ++ h) = None) as Qr
        by now rewrite (cut_app_none _ _ _ Hq1), Hh.
    assert (Spec.cut "#" (q ++ h)
            = match h with
              | EmptyString => None
              | String _ r => Some (q, r)
              end) as Hcut.
    { rewrite (cut_app_none _ _ _ Hq2).
      destruct Hshape as [-> | [r [-> _]]]; simpl; [reflexivity|].
      now rewrite append_empty_r. }
    rewrite parseUrlParts_agrees_with_spec.
    + unfold Spec.parse. rewrite Q, Hcut.
      assert (Js.truthy q = true) as Tq.
      { unfold Js.truthy. apply negb_true_iff. now apply String.eqb_neq. }
      destruct Hshape as [-> | [r [-> _]]]; cbn [append];
        cbv beta iota zeta; rewrite ?append_empty_r, ?Tq; reflexivity.
    + intros a b E. rewrite Q in E. inversion E. subst a b.
      split; [exact Qr|]. intros qq f E'. rewrite Hcut in E'.
      destruct Hshape as [-> | [r [-> [_ Hr]]]]; [discriminate|].
      inversion E'. now subst.
Qed.

(** X7: when the fragment holds a ["?"], the parser cuts there first:
    the path it reports is the path name together with the fragment up
    to that ["?"], and this is the path the path rules see. *)
Theorem parseUrlParts_path_absorbs_fragment (p r1 r2 : string) :
  Spec.cut "?" p = None ->
  Spec.cut "?" r1 = None ->
  path (parseUrlParts (p ++ "#" ++ r1 ++ "?" ++ r2)) = p ++ "#" ++ r1.
Proof.
  intros Hp Hr1. apply (path_of_queried _ _ r2).
  rewrite (cut_app_none _ _ _ Hp). simpl.
  rewrite (cut_app_none _ _ _ Hr1). simpl.
  now rewrite !append_empty_r.
Qed.

Lemma first_piece_no_sep (sep : ascii) (s : string) :
  Spec.cut sep (Js.get (Js.split sep s) 0) = None.
Proof.
  destruct (Spec.cut sep s) as [[a b]|] eqn:E.
  - rewrite (cut_some_split _ _ _ _ E). simpl.
    now destruct (cut_before _ _ _ _ E).
  - now rewrite (cut_none_split _ _ E).
Qed.

Lemma first_piece_keeps_none (c sep : ascii) (s : string) :
  Spec.cut c s = None -> Spec.cut c (Js.get (Js.split sep s) 0) = None.
Proof.
  intros H. destruct (Spec.cut sep s) as [[a b]|] eqn:E.
  - rewrite (cut_some_split _ _ _ _ E). simpl.
    destruct (cut_before _ _ _ _ E) as [_ Es]. rewrite Es in H.
    now apply cut_app_none_inv in H.
  - now rewrite (cut_none_split _ _ E).
Qed.

Lemma pieces_no_sep (sep : ascii) (s x : string) :
  In x (Js.split sep s) -> Spec.cut sep x = None.
Proof.
  revert x; induction s as [|c s IH]; intros x; simpl.
  - intros [<- | []]. reflexivity.
  - destruct (Ascii.eqb_spec c sep) as [->|ne].
    + intros [<- | H]; [reflexivity | now apply IH].
    + destruct (Js.split sep s) as [|piece rest] eqn:E.
      * now apply split_nonempty in E.
      * intros [<- | H].
        -- simpl. destruct (Ascii.eqb_spec c sep) as [|_]; [contradiction|].
           now rewrite (IH piece (or_introl eq_refl)).
        -- apply IH. now right.
Qed.

Lemma split_one_piece (sep : ascii) (s : string) :
  List.length (Js.split sep s) = 1%nat -> Spec.cut sep s = None.
Proof.
  destruct (Spec.cut sep s) as [[a b]|] eqn:E; [|reflexivity].
  rewrite (cut_some_split _ _ _ _ E). simpl.
  destruct (Js.split sep b) eqn:Eb; [now apply split_nonempty in Eb|].
  discriminate.
Qed.

(** X8: what the parser returns on any input: a path without ["?"], a
    query without ["?"] and without ["#"], and a fragment that is empty
    or begins with ["#"]. *)
Theorem parseUrlParts_shape (url : string) :
  Spec.cut "?" (path (parseUrlParts url)) = None /\
  Spec.cut "?" (query (parseUrlParts url)) = None /\
  Spec.cut "#" (query (parseUrlParts url)) = None /\
  (hashPart (parseUrlParts url) = "" \/
   exists r, hashPart (parseUrlParts url) = "#" ++ r).
Proof.
  unfold parseUrlParts.
  set (pathParts := Js.split "?" url).
  set (queryAndHash :=
         if (1 <? List.length pathParts)%nat then Js.get pathParts 1 else "").
  assert (Spec.cut "?" queryAndHash = None) as Hqh.
  { unfold queryAndHash. destruct (1 <? List.length pathParts)%nat eqn:L;
      [|reflexivity].
    apply Nat.ltb_lt in L. apply (pieces_no_sep _ url).
    apply nth_In. exact L. }
  destruct ((List.length pathParts =? 1)%nat && Js.includes url "#") eqn:C;
    cbn [path query hashPart].
  - apply andb_true_iff in C. destruct C as [L _].
    apply Nat.eqb_eq, split_one_piece in L.
    repeat split; try reflexivity.
    + now apply first_piece_keeps_none.
    + right. eexists; reflexivity.
  - repeat split.
    + apply first_piece_no_sep.
    + now apply first_piece_keeps_none.
    + apply first_piece_no_sep.
    + destruct (1 <? List.length (Js.split "#" queryAndHash))%nat;
        [right; eexists; reflexivity | now left].
Qed.

End MoreParser.

(** * Further properties of the dispatcher *)

Section MoreDispatcher.

Context {Handler : Type}.
Variable SiteManager : option (option string -> result (option Handler)).
Variable invoke : Handler -> PageInfo -> HandlerRun.
Hypothesis handlersQuiet : Quiet invoke.

Local Abbreviation World := (World Handler).
Local Abbreviation process := (processUrlChange SiteManager invoke).
Local Abbreviation callback := (timerCallback SiteManager invoke).
Local Abbreviation dispatchTo := (dispatch SiteManager invoke).
Local Abbreviation execute := (exec SiteManager invoke).
Local Abbreviation runAll := (run SiteManager invoke).

Lemma run_app (a b : list Event) (w : World) :
  runAll (a ++ b)%list w = runAll b (runAll a w).
Proof. apply fold_left_app. Qed.

Lemma run_cons (e : Event) (events : list Event) (w : World) :
  runAll (e :: events) w = runAll events (execute w e).
Proof. reflexivity. Qed.





(** *** The repeat check and the debounce delay *)

Lemma consulted_app (a b : list (Effect Handler)) :
  consulted (a ++ b)%list = (consulted a ++ consulted b)%list.
Proof.
  induction a as [|e a IH]; simpl; [reflexivity|].
  destruct e; simpl; now rewrite IH.
Qed.

Lemma processUrlChange_state (u : option string) (w : World) :
  state (process u w)
  = if strict_eq u (lastProcessedUrl (state w))
       && (now w - lastProcessTime (state w) <? CONFIG.URL_REPEAT_THRESHOLD)%Z
    then state w
    else {| lastProcessedUrl := u;
            lastProcessTime := now w;
            contentScriptLoaded := contentScriptLoaded (state w);
            urlChangeTimer := urlChangeTimer (state w);
            pendingUrl := pendingUrl (state w) |}.
Proof.
  unfold processUrlChange. cbn [state now emit].
  destruct (strict_eq u _ && _); [reflexivity|].
  match goal with
  | |- context [dispatchTo ?a ?t ?x] =>
      destruct (dispatch_frame SiteManager invoke handlersQuiet a t x) as (Hs & _)
  end.
  now rewrite Hs.
Qed.

Lemma process_passes (u : option string) (w : World)
      (findHandler : option string -> result (option Handler)) :
  SiteManager = Some findHandler ->
  (CONFIG.URL_REPEAT_THRESHOLD <= now w - lastProcessTime (state w))%Z ->
  lastProcessTime (state (process u w)) = now w /\
  consulted (trace (process u w)) = (consulted (trace w) ++ [u])%list.
Proof.
  intros HS late. split.
  - rewrite processUrlChange_state.
    destruct (Z.ltb_spec (now w - lastProcessTime (state w))
                         CONFIG.URL_REPEAT_THRESHOLD) as [lt|_]; [lia|].
    now rewrite andb_false_r.
  - unfold processUrlChange. cbn [state now emit].
    destruct (Z.ltb_spec (now w - lastProcessTime (state w))
                         CONFIG.URL_REPEAT_THRESHOLD) as [lt|_]; [lia|].
    rewrite andb_false_r. unfold dispatch. rewrite HS.
    destruct (findHandler u) as [[h|]|e];
      [cbv zeta; rewrite handlersQuiet; cbn [signalAll fold_left];
       destruct (outcome (invoke h _))| |];
      unfold withState, emit; cbn [trace];
      repeat rewrite consulted_app; cbn [consulted];
      now rewrite ?app_nil_r.
Qed.

Lemma timerCallback_passes (w : World)
      (findHandler : option string -> result (option Handler)) :
  SiteManager = Some findHandler ->
  (CONFIG.URL_REPEAT_THRESHOLD <= now w - lastProcessTime (state w))%Z ->
  lastProcessTime (state (callback w)) = now w /\
  consulted (trace (callback w))
  = (consulted (trace w) ++ [pendingUrl (state w)])%list.
Proof.
  intros HS late.
  destruct (process_passes (pendingUrl (state w)) w findHandler HS late)
    as [Hl Hc].
  unfold timerCallback, setUrlChangeTimer, withState.
  cbn [state trace lastProcessTime]. now split.
Qed.

Lemma Undropped_exec (w : World) (e : Event)
      (findHandler : option string -> result (option Handler)) :
  SiteManager = Some findHandler ->
  Undropped w -> Undropped (execute w e).
Proof.
  intros HS (I & [Hlpt Hdue] & Hc).
  split; [now apply Inv_exec|].
  destruct e as [u|ms].
  - cbn [exec]. rewrite (handleUrlChange_inv u w I).
    unfold OnTime. cbn. split; [|exact Hc]. split; [exact Hlpt|].
    intros h due [E|[]]. inversion E. subst.
    unfold CONFIG.URL_PROCESS_DELAY, CONFIG.URL_REPEAT_THRESHOLD. lia.
  - pose proof I as [_ Shape].
    destruct (urlChangeTimer (state w)) as [h|].
    + destruct Shape as [_ [due Ht]].
      destruct (Hdue h due) as [[Hnow Hsoon] Hrep]; [rewrite Ht; now left|].
      destruct (Z.le_gt_cases due (now w + Z.of_N ms)) as [late|early].
      * rewrite (wait_due SiteManager invoke handlersQuiet ms w h due Ht late).
        set (x := clearTimeout h (setNow (Z.max (now w) due) w)).
        assert (now x = due) as Nx by (cbn; lia).
        assert (lastProcessTime (state x) = lastProcessTime (state w)) as Lx
            by reflexivity.
        destruct (timerCallback_frame SiteManager invoke handlersQuiet x)
          as (_ & _ & Hn & Htm & _ & Hd).
        destruct (timerCallback_passes x findHandler HS)
          as [Hl Hcons]; [rewrite Nx, Lx; lia|].
        unfold OnTime. cbn [state now timers trace setNow].
        rewrite Htm, Hd, Hl, Hcons, Nx.
        unfold x. cbn [timers clearTimeout setNow trace state].
        rewrite Ht. cbn [filter fst negb]. rewrite N.eqb_refl. cbn [negb].
        split; [split; [lia | intros ? ? []] | now rewrite Hc].
      * rewrite (wait_not_due SiteManager invoke ms w h due Ht) by lia.
        unfold OnTime. cbn [state now timers trace setNow].
        split; [|exact Hc]. split; [lia|].
        intros h' due' Hin. rewrite Ht in Hin. destruct Hin as [E|[]].
        inversion E. subst. lia.
    + rewrite (wait_no_timer SiteManager invoke ms w Shape).
      unfold OnTime. cbn [state now timers trace setNow].
      split; [|exact Hc]. split; [lia|].
      intros h due Hin. rewrite Shape in Hin. destruct Hin.
Qed.

(** X10: with the shipped delays the repeat check never drops a
    dispatch, as long as no handler signals a URL change while it runs
    ([handlersQuiet]).  In every such run from the start of the script
    (clock not negative, timeouts firing when due), a timeout falls
    due at least 2000 ms after the last processing, so each call of
    [processUrlChange] goes on to ask the site manager: the URLs asked
    about are the URLs dispatched.  The condition on the handlers
    cannot be left out: when the handler of [/a] moves the page on
    with [history.pushState], the next signal leaves two timeouts
    behind, both fire for [/c], 500 ms apart, and the repeat check
    drops the second. *)
Theorem repeat_check_never_drops :
  (forall (events : list Event) (t0 : Z) (pg : Page.t)
          (findHandler : option string -> result (option Handler)),
      SiteManager = Some findHandler ->
      (0 <= t0)%Z ->
      consulted (trace (runAll events (initialWorld t0 pg)))
      = dispatched (trace (runAll events (initialWorld t0 pg)))) /\
  (let SM := installedSiteManager (P := Demo.platform) Demo.configs in
   let settled :=
     run SM Demo.navigating
         [Signal "https://example.com/a"; Wait 2000; Wait 500;
          Signal "https://example.com/c"; Wait 2000]
         (initialWorld (Handler := string) 0 Demo.page) in
   dispatched (trace settled)
   = [Some "https://example.com/a"; Some "https://example.com/c";
      Some "https://example.com/c"] /\
   consulted (trace settled)
   = [Some "https://example.com/a"; Some "https://example.com/c"]).
Proof.
  split; [|split; reflexivity].
  intros events t0 pg findHandler HS Ht0.
  assert (forall w, Undropped w -> Undropped (runAll events w)) as Keep.
  { induction events as [|e events IH]; intros w U; [exact U|].
    rewrite run_cons. apply IH. now apply (Undropped_exec w e findHandler). }
  apply Keep. split; [apply Inv_initial|]. split; [|reflexivity].
  split; [exact Ht0 | intros h due []].
Qed.

(** *** Which signals are dispatched *)

Lemma Subseq_length {A : Type} (l m : list A) :
  Subseq l m -> (List.length l <= List.length m)%nat.
Proof. induction 1; cbn [List.length]; lia. Qed.

Lemma Subseq_snoc_skip {A : Type} (l m : list A) (x : A) :
  Subseq l m -> Subseq l (m ++ [x])%list.
Proof.
  induction 1 as [|y l m _ IH|y l m _ IH]; simpl.
  - apply Subseq_skip, Subseq_nil.
  - now apply Subseq_skip.
  - now apply Subseq_keep.
Qed.

Lemma Subseq_snoc_keep {A : Type} (l m : list A) (x : A) :
  Subseq l m -> Subseq (l ++ [x])%list (m ++ [x])%list.
Proof.
  induction 1 as [|y l m _ IH|y l m _ IH]; simpl.
  - apply Subseq_keep, Subseq_nil.
  - now apply Subseq_skip.
  - now apply Subseq_keep.
Qed.

Lemma Accounted_Subseq (w : World) (sigs : list (option string)) :
  Accounted w sigs -> Subseq (dispatched (trace w)) sigs.
Proof.
  unfold Accounted. destruct (timers w); [trivial|].
  intros [earlier [-> H]]. now apply Subseq_snoc_skip.
Qed.

Lemma Accounted_exec (w : World) (e : Event) (sigs : list (option string)) :
  Inv w -> Accounted w sigs ->
  Accounted (execute w e) (sigs ++ signalsOf [e])%list.
Proof.
  intros I A. destruct e as [u|ms].
  - pose proof (Accounted_Subseq w sigs A) as S.
    cbn [exec signalsOf]. rewrite (handleUrlChange_inv u w I).
    unfold Accounted. cbn. now exists sigs.
  - cbn [signalsOf]. rewrite app_nil_r.
    pose proof I as [_ Shape].
    destruct (urlChangeTimer (state w)) as [h|].
    + destruct Shape as [_ [due Ht]].
      destruct (Z.le_gt_cases due (now w + Z.of_N ms)) as [late|early].
      * rewrite (wait_due SiteManager invoke handlersQuiet ms w h due Ht late).
        set (x := clearTimeout h (setNow (Z.max (now w) due) w)).
        destruct (timerCallback_frame SiteManager invoke handlersQuiet x)
          as (_ & _ & _ & Htm & _ & Hd).
        unfold Accounted in *. cbn [timers trace setNow].
        rewrite Htm, Hd. unfold x. cbn [timers clearTimeout setNow trace state].
        rewrite Ht in *. cbn [filter fst negb]. rewrite N.eqb_refl. cbn [negb].
        destruct A as [earlier [-> S]]. now apply Subseq_snoc_keep.
      * now rewrite (wait_not_due SiteManager invoke ms w h due Ht) by lia.
    + now rewrite (wait_no_timer SiteManager invoke ms w Shape).
Qed.

Lemma signalsOf_cons (e : Event) (events : list Event) :
  signalsOf (e :: events) = (signalsOf [e] ++ signalsOf events)%list.
Proof. destruct e; reflexivity. Qed.

Lemma Accounted_run (events : list Event) (w : World)
      (sigs : list (option string)) :
  Inv w -> Accounted w sigs ->
  Accounted (runAll events w) (sigs ++ signalsOf events)%list.
Proof.
  revert w sigs; induction events as [|e events IH]; intros w sigs I A.
  - cbn [signalsOf]. now rewrite app_nil_r.
  - rewrite run_cons, signalsOf_cons, app_assoc.
    apply IH; [now apply Inv_exec | now apply Accounted_exec].
Qed.

(** X11: as long as no handler signals a URL change while it runs
    ([handlersQuiet]), the URLs dispatched from the start of the
    script are some of the URLs signalled, in the order of the
    signals, each signal at most once: nothing is dispatched that was
    not signalled (in particular never [null]), and nothing is
    dispatched twice or out of order.  The condition on the handlers
    cannot be left out: when the handler of [/a] moves the page on to
    [/b] with [history.pushState] and a signal for [/c] follows, [/c]
    is dispatched twice and [/b] never, whether the signal of the
    handler is counted among the signals or not. *)
Theorem dispatched_are_signals_in_order :
  (forall (events : list Event) (t0 : Z) (pg : Page.t),
      Subseq (dispatched (trace (runAll events (initialWorld t0 pg))))
             (signalsOf events)) /\
  (let SM := installedSiteManager (P := Demo.platform) Demo.configs in
   let events :=
     [Signal "https://example.com/a"; Wait 2000; Wait 500;
      Signal "https://example.com/c"; Wait 2000] in
   let settled :=
     run SM Demo.navigating events
         (initialWorld (Handler := string) 0 Demo.page) in
   dispatched (trace settled)
   = [Some "https://example.com/a"; Some "https://example.com/c";
      Some "https://example.com/c"] /\
   ~ Subseq (dispatched (trace settled)) (signalsOf events) /\
   ~ Subseq (dispatched (trace settled))
            [Some "https://example.com/a"; Some "https://example.com/b";
             Some "https://example.com/c"]).
Proof.
  split.
  - intros events t0 pg. apply Accounted_Subseq.
    apply (Accounted_run events (initialWorld t0 pg) []).
    + apply Inv_initial.
    + apply Subseq_nil.
  - cbv zeta.
    change (dispatched
              (trace
                 (run (installedSiteManager (P := Demo.platform) Demo.configs)
                      Demo.navigating
                      [Signal "https://example.com/a"; Wait 2000; Wait 500;
                       Signal "https://example.com/c"; Wait 2000]
                      (initialWorld (Handler := string) 0 Demo.page))))
      with [Some "https://example.com/a"; Some "https://example.com/c";
            Some "https://example.com/c"].
    split; [reflexivity|].
    split; intros S.
    + apply Subseq_length in S. cbn in S. lia.
    + repeat match goal with
             | H : Subseq _ _ |- _ => inversion H; clear H; subst
             end.
Qed.

Lemma Settling_exec (w : World) (e : Event) :
  Settling w -> Settling (execute w e).
Proof.
  intros (I & Hdue & D). split; [now apply Inv_exec|].
  destruct e as [u|ms].
  - cbn [exec]. rewrite (handleUrlChange_inv u w I).
    unfold Delivered. cbn. split; [|discriminate].
    intros h due [E|[]]. inversion E. lia.
  - pose proof I as [_ Shape].
    destruct (urlChangeTimer (state w)) as [h|].
    + destruct Shape as [_ [due Ht]].
      destruct (Z.le_gt_cases due (now w + Z.of_N ms)) as [late|early].
      * rewrite (wait_due SiteManager invoke handlersQuiet ms w h due Ht late).
        set (x := clearTimeout h (setNow (Z.max (now w) due) w)).
        destruct (timerCallback_frame SiteManager invoke handlersQuiet x)
          as (_ & Hp & _ & Htm & _ & Hd).
        unfold Delivered. cbn [timers trace state now setNow].
        rewrite Htm, Hd, Hp. unfold x.
        cbn [timers clearTimeout setNow trace state].
        rewrite Ht. cbn [filter fst negb]. rewrite N.eqb_refl. cbn [negb].
        split; [intros ? ? [] | intros _; right; eexists; reflexivity].
      * rewrite (wait_not_due SiteManager invoke ms w h due Ht) by lia.
        specialize (Hdue h due). rewrite Ht in Hdue.
        specialize (Hdue (or_introl eq_refl)).
        unfold Delivered. cbn [timers trace state now setNow]. rewrite Ht.
        split; [|discriminate].
        intros h' due' [E|[]]. inversion E. subst. lia.
    + rewrite (wait_no_timer SiteManager invoke ms w Shape).
      unfold Delivered. cbn [timers trace state now setNow].
      split; [|exact D].
      intros h due Hin. rewrite Shape in Hin. destruct Hin.
Qed.

Lemma Settling_run (events : list Event) (w : World) :
  Settling w -> Settling (runAll events w).
Proof.
  revert w; induction events as [|e events IH]; intros w S; [exact S|].
  rewrite run_cons. apply IH. now apply Settling_exec.
Qed.

(** X12: the settled URL is not lost.  After any run from the start of
    the script in which a URL was signalled, a quiet period of at least
    the debounce delay leaves the last signalled URL as the last one
    dispatched.  The signals of the run are the only ones: the
    handlers that are called signal nothing ([handlersQuiet]). *)
Theorem last_signal_is_dispatched
        (events : list Event) (t0 : Z) (pg : Page.t) (u : string) (quiet : N) :
  lastSignal events None = Some u ->
  (CONFIG.URL_PROCESS_DELAY <= Z.of_N quiet)%Z ->
  exists before,
    dispatched
      (trace (runAll (events ++ [Wait quiet])%list (initialWorld t0 pg)))
    = (before ++ [Some u])%list.
Proof.
  intros Hlast long. rewrite run_app.
  set (w := runAll events (initialWorld t0 pg)).
  assert (Settling w) as (I & Hdue & D).
  { apply Settling_run. split; [apply Inv_initial|].
    split; [intros h due [] | intros _; now left]. }
  assert (pendingUrl (state w) = Some u) as Hp.
  { unfold w. now rewrite (run_pendingUrl SiteManager invoke handlersQuiet). }
  change (runAll [Wait quiet] w) with (execute w (Wait quiet)).
  pose proof I as [_ Shape].
  destruct (urlChangeTimer (state w)) as [h|].
  - destruct Shape as [_ [due Ht]].
    specialize (Hdue h due). rewrite Ht in Hdue.
    specialize (Hdue (or_introl eq_refl)).
    rewrite (wait_due SiteManager invoke handlersQuiet quiet w h due Ht) by lia.
    set (x := clearTimeout h (setNow (Z.max (now w) due) w)).
    destruct (timerCallback_frame SiteManager invoke handlersQuiet x)
      as (_ & _ & _ & _ & _ & Hd).
    cbn [trace setNow]. rewrite Hd. unfold x.
    cbn [clearTimeout setNow trace state]. rewrite Hp.
    eexists; reflexivity.
  - rewrite (wait_no_timer SiteManager invoke quiet w Shape).
    cbn [trace setNow]. destruct (D Shape) as [N | [before E]].
    + congruence.
    + exists before. now rewrite E, Hp.
Qed.

End MoreDispatcher.

Lemma core_timers {Handler : Type} (a b : World Handler) :
  core a = core b -> timers a = timers b.
Proof. unfold core. intros E. now inversion E. Qed.

Section Independence.

Context {Handler : Type}.
Variables SM1 SM2 : option (option string -> result (option Handler)).
Variables invoke1 invoke2 : Handler -> PageInfo -> HandlerRun.
Hypothesis quiet1 : Quiet invoke1.
Hypothesis quiet2 : Quiet invoke2.

Lemma core_eq (a b : World Handler) :
  core a = core b ->
  state a = state b /\ now a = now b /\ timers a = timers b /\
  nextHandle a = nextHandle b /\
  dispatched (trace a) = dispatched (trace b).
Proof. unfold core. intros E. inversion E. now repeat split. Qed.

Lemma handleUrlChange_core (u : string) (a b : World Handler) :
  core a = core b -> core (handleUrlChange u a) = core (handleUrlChange u b).
Proof.
  destruct a as [sa na ta ha pa tra], b as [sb nb tb hb pb trb].
  unfold core. cbn. intros E. inversion E. subst.
  unfold handleUrlChange. cbn.
  destruct (timerTruthy (urlChangeTimer sb)); [|cbn; congruence].
  destruct (urlChangeTimer sb); cbn; congruence.
Qed.

Lemma timerCallback_core (a b : World Handler) :
  core a = core b ->
  core (timerCallback SM1 invoke1 a) = core (timerCallback SM2 invoke2 b).
Proof.
  intros E.
  destruct (processUrlChange_frame SM1 invoke1 quiet1 (pendingUrl (state a)) a)
    as (_ & _ & Hn1 & Ht1 & Hh1 & Hd1).
  destruct (processUrlChange_frame SM2 invoke2 quiet2 (pendingUrl (state b)) b)
    as (_ & _ & Hn2 & Ht2 & Hh2 & Hd2).
  pose proof (processUrlChange_state SM1 invoke1 quiet1 (pendingUrl (state a)) a)
    as Hs1.
  pose proof (processUrlChange_state SM2 invoke2 quiet2 (pendingUrl (state b)) b)
    as Hs2.
  destruct (core_eq a b E) as (Es & En & Et & Eh & Ed).
  unfold core, timerCallback, setUrlChangeTimer, withState.
  cbn [state now timers nextHandle trace].
  rewrite Hn1, Hn2, Ht1, Ht2, Hh1, Hh2, Hd1, Hd2, Hs1, Hs2.
  now rewrite Es, En, Et, Eh, Ed.
Qed.

Lemma fire_core (t : N * Z) (a b : World Handler) :
  core a = core b ->
  core (fire SM1 invoke1 t a) = core (fire SM2 invoke2 t b).
Proof.
  intros E. unfold fire. apply timerCallback_core.
  destruct (core_eq a b E) as (Es & En & Et & Eh & Ed).
  unfold core. cbn [clearTimeout setNow state now timers nextHandle trace].
  now rewrite Es, En, Et, Eh, Ed.
Qed.

Lemma advance_core (fuel : nat) (target : Z) (a b : World Handler) :
  core a = core b ->
  core (advance SM1 invoke1 fuel target a)
  = core (advance SM2 invoke2 fuel target b).
Proof.
  revert a b; induction fuel as [|fuel IH]; intros a b E;
    destruct (core_eq a b E) as (Es & En & Et & Eh & Ed).
  - unfold core. cbn [advance setNow state now timers nextHandle trace].
    now rewrite Es, En, Et, Eh, Ed.
  - cbn [advance]. rewrite Et.
    destruct (nextDue target (timers b)) as [t|].
    + apply IH. now apply fire_core.
    + unfold core. cbn [setNow state now timers nextHandle trace].
      now rewrite Es, En, Et, Eh, Ed.
Qed.

(** X13: as long as no handler signals a URL change while it runs
    ([quiet1], [quiet2]), the state of the dispatcher does not depend
    on the site manager or on the handlers.  The same signals at the
    same times lead to the same [state] object, the same pending
    timeout and the same sequence of dispatched URLs, whether the site
    manager is missing, finds no handler, or finds one that throws.
    The condition on the handlers cannot be left out: after a signal
    for [/a] and 2000 ms, the state differs between a handler of [/a]
    that only returns and one that moves the page on to [/b] with
    [history.pushState] first. *)
Theorem dispatcher_state_ignores_handlers :
  (forall (events : list Event) (w : World Handler),
      core (run SM1 invoke1 events w) = core (run SM2 invoke2 events w)) /\
  (let SM := installedSiteManager (P := Demo.platform) Demo.configs in
   let events := [Signal "https://example.com/a"; Wait 2000] in
   let start := initialWorld (Handler := string) 0 Demo.page in
   core (run SM Demo.invoke events start)
   <> core (run SM Demo.navigating events start)).
Proof.
  split.
  - intros events w.
    assert (forall a b : World Handler,
               core a = core b ->
               core (run SM1 invoke1 events a)
               = core (run SM2 invoke2 events b))
      as Gen.
    { induction events as [|e events IH]; intros a b E; [exact E|].
      change (core (run SM1 invoke1 events (exec SM1 invoke1 a e))
              = core (run SM2 invoke2 events (exec SM2 invoke2 b e))).
      apply IH. destruct e as [u|ms]; cbn [exec].
      - now apply handleUrlChange_core.
      - destruct (core_eq a b E) as (_ & En & Et & _).
        unfold waitFuel. rewrite Et, En. now apply advance_core. }
    now apply Gen.
  - cbv zeta. intros E. apply core_timers in E.
    vm_compute in E. discriminate E.
Qed.

End Independence.

(** * The URL monitor *)

Section UrlMonitorFacts.

Context {Owner : Type}.
Variable navigate : string -> string -> result string.
Variable cb : Callback Owner.

Local Abbreviation init := (initUrlMonitor cb (Some false)).
Local Abbreviation wrap := (fun m : HistoryMethod Owner => Wrapper m cb).

Lemma init_repeated (n : nat) (w : Window Owner) :
  Nat.iter n init w
  = {| href := href w;
       pushState := Nat.iter n wrap (pushState w);
       replaceState := Nat.iter n wrap (replaceState w);
       popstateListeners := (popstateListeners w ++ repeat cb n)%list;
       owner := owner w |}.
Proof.
  induction n as [|n IH]; cbn [Nat.iter nat_rect repeat].
  - destruct w. cbn. now rewrite app_nil_r.
  - unfold Nat.iter in IH. rewrite IH. unfold initUrlMonitor. cbn.
    f_equal. rewrite <- app_assoc. f_equal.
    change (cb :: repeat cb n) with (repeat cb (S n)).
    now rewrite <- repeat_cons.
Qed.

Lemma callHistory_wrapped (n : nat) (urlArg h : string) (w : Window Owner) :
  navigate (href w) urlArg = Ok h ->
  callHistory navigate (Nat.iter n wrap Native) urlArg w
  = Ok {| href := h; pushState := pushState w;
          replaceState := replaceState w;
          popstateListeners := popstateListeners w;
          owner := Nat.iter n (cb h) (owner w) |}.
Proof.
  intros Hnav. induction n as [|n IH]; cbn [Nat.iter nat_rect callHistory].
  - now rewrite Hnav.
  - unfold Nat.iter in IH. now rewrite IH.
Qed.

Lemma callHistory_refused (m : HistoryMethod Owner) (urlArg : string)
      (e : JsError) (w : Window Owner) :
  navigate (href w) urlArg = Throw e ->
  callHistory navigate m urlArg w = Throw e.
Proof.
  intros Hnav. induction m as [|m IH onUrlChange]; cbn [callHistory].
  - now rewrite Hnav.
  - now rewrite IH.
Qed.

Lemma notify_all (n : nat) (w : Window Owner) :
  fold_left (fun w c => notify c w) (repeat cb n) w
  = {| href := href w; pushState := pushState w;
       replaceState := replaceState w;
       popstateListeners := popstateListeners w;
       owner := Nat.iter n (cb (href w)) (owner w) |}.
Proof.
  revert w; induction n as [|n IH]; intros w; cbn [repeat fold_left].
  - now destruct w.
  - rewrite IH. unfold notify. cbn [href pushState replaceState
      popstateListeners owner]. f_equal.
    now rewrite Nat.iter_succ_r.
Qed.

(** X14: after [initUrlMonitor] has run [n] times on a page (without
    the immediate check), a call of [history.pushState] or
    [history.replaceState] first changes the location and then calls
    [onUrlChange] [n] times with the new location; a [popstate] does
    the same.  When the browser refuses the navigation, the exception
    leaves the wrapper and [onUrlChange] is not called.  Initialising
    calls nothing by itself. *)
Theorem monitor_notifies_once_per_init
        (n : nat) (h0 urlArg : string) (o : Owner) :
  let w := Nat.iter n init (freshWindow h0 o) in
  owner w = o /\ href w = h0 /\
  (forall h, navigate h0 urlArg = Ok h ->
             (exists w', callHistory navigate (pushState w) urlArg w = Ok w'
                         /\ href w' = h
                         /\ owner w' = Nat.iter n (cb h) o) /\
             (exists w', callHistory navigate (replaceState w) urlArg w = Ok w'
                         /\ href w' = h
                         /\ owner w' = Nat.iter n (cb h) o)) /\
  (forall e, navigate h0 urlArg = Throw e ->
             callHistory navigate (pushState w) urlArg w = Throw e /\
             callHistory navigate (replaceState w) urlArg w = Throw e) /\
  (forall h, href (popstate h w) = h /\
             owner (popstate h w) = Nat.iter n (cb h) o).
Proof.
  intros w. unfold w. rewrite init_repeated.
  cbn [freshWindow href pushState replaceState popstateListeners owner].
  split; [reflexivity|]. split; [reflexivity|]. split; [|split].
  - intros h Hnav. split; eexists;
      (split; [apply callHistory_wrapped; exact Hnav | now split]).
  - intros e Hnav. split; now apply callHistory_refused.
  - intros h. unfold popstate.
    cbn [popstateListeners setHref href pushState replaceState owner app].
    rewrite notify_all. now split.
Qed.

End UrlMonitorFacts.

Section MonitorAndDispatcher.

Context {Handler : Type}.
Variable SiteManager : option (option string -> result (option Handler)).
Variable invoke : Handler -> PageInfo -> HandlerRun.
Hypothesis handlersQuiet : Quiet invoke.
Variable navigate : string -> string -> result string.



End MonitorAndDispatcher.

(** * The earlier site manager *)

Section LegacyFacts.

Context {Handler : Type}.

Lemma endsWith_longer (s t : string) (c : ascii) :
  Js.endsWith s (String c t) = true -> Js.endsWith s t = true.
Proof.
  rewrite !endsWith_spec. intros [front ->].
  exists (front ++ String c ""). now rewrite append_assoc.
Qed.

(** X16: the earlier site manager never compiles a regular expression.
    Its three tests on the shape of a route (ends with ["/"], holds a
    ["*"]) cover every route, so the branch for routes written
    [/^...$/] is never reached and the outcome does not depend on the
    platform's [RegExp]; such a route, ending in ["/"], is tried as a
    string prefix (of [pathname + hash] when it holds a ["#"], of the
    path name otherwise). *)
Theorem legacy_regex_branch_is_dead :
  (forall (P Q : Platform) (fullPath pathname hash : string)
          (route : Legacy.Route Handler),
      Legacy.routeMatches (P := P) fullPath pathname hash route
      = Legacy.routeMatches (P := Q) fullPath pathname hash route) /\
  (forall (P : Platform) (fullPath pathname hash rp : string)
          (h : option Handler),
      Js.endsWith rp "$/" = true ->
      Js.includes rp "*" = false ->
      String.eqb fullPath rp = false ->
      String.eqb pathname rp = false ->
      Legacy.routeMatches (P := P) fullPath pathname hash
        {| Legacy.routePath := rp; Legacy.handler := h |}
      = Ok (Js.startsWith (if Js.includes rp "#" then fullPath else pathname)
                          rp)).
Proof.
  split.
  - intros P Q fullPath pathname hash route. unfold Legacy.routeMatches.
    destruct (String.eqb _ "/"); [reflexivity|].
    destruct (String.eqb fullPath _); [reflexivity|].
    destruct (String.eqb pathname _); [reflexivity|].
    destruct (Js.endsWith _ "/"), (Js.includes _ "*"); reflexivity.
  - intros P fullPath pathname hash rp h Hend Hstar Hfull Hpath.
    unfold Legacy.routeMatches. cbn [Legacy.routePath].
    rewrite Hfull, Hpath, Hstar.
    rewrite (endsWith_longer rp "/" "$" Hend).
    destruct (String.eqb_spec rp "/") as [->|_]; [discriminate Hend|].
    cbn. now destruct (Js.includes rp "#").
Qed.

End LegacyFacts.

Section BothVersions.

Context {P : Platform} {Handler : Type}.

Lemma positive_length_is_truthy (l : list string) :
  filter (fun part => (0 <? String.length part)%nat) l = Js.filterBoolean l.
Proof.
  unfold Js.filterBoolean. apply filter_ext. intros s. now destruct s.
Qed.

Lemma matchPathPrefix_refl (p : string) (parts : UrlParts) :
  path parts = p -> matchPathPrefix p parts = true.
Proof.
  intros <-. apply matchPathPrefix_spec. split; [lia | reflexivity].
Qed.

(** X17: on a plain route (no ["#"], no ["*"], no trailing ["/"]) the
    two versions of the site manager decide alike, for every URL whose
    path name holds no ["?"] and no ["#"] and whose fragment holds no
    ["?"]: both compare the segments of the route with the first
    segments of the path name. *)
Theorem plain_route_same_in_both_versions
        (rp pathname hash : string) (h : option Handler) :
  Js.includes rp "#" = false ->
  Js.includes rp "*" = false ->
  Js.endsWith rp "/" = false ->
  Spec.cut "?" pathname = None ->
  Spec.cut "#" pathname = None ->
  Spec.cut "?" hash = None ->
  (hash = "" \/ exists r, hash = "#" ++ r) ->
  Legacy.routeMatches (pathname ++ hash) pathname hash
    {| Legacy.routePath := rp; Legacy.handler := h |}
  = routeMatches (pathname ++ hash)
      {| routePath := rp; matchType := None; handler := h |}.
Proof.
  intros Hhash Hstar Hslash Hp1 Hp2 Hh Hshape.
  assert (String.eqb rp "/" = false) as Hroot.
  { destruct (String.eqb_spec rp "/") as [->|_]; [discriminate|reflexivity]. }
  unfold routeMatches, matchAllPages, matchTypeIs.
  cbn [routePath matchType]. rewrite Hroot.
  rewrite (parseUrlParts_unqueried pathname hash Hp1 Hp2 Hh Hshape).
  set (parts := {| path := pathname; query := ""; hashPart := hash;
                   fullPathOf := pathname ++ hash |}).
  unfold Legacy.routeMatches. cbn [Legacy.routePath]. rewrite Hroot.
  destruct (String.eqb_spec (pathname ++ hash) rp) as [Efull|_].
  - assert (hash = "") as ->.
    { destruct Hshape as [-> | [r ->]]; [reflexivity|].
      assert (Js.includes rp "#" = true) as Yes; [|congruence].
      apply includes_spec. exists pathname, r. now rewrite <- Efull. }
    rewrite append_empty_r in Efull.
    now rewrite (matchPathPrefix_refl rp parts).
  - destruct (String.eqb_spec pathname rp) as [Epath|_].
    + now rewrite (matchPathPrefix_refl rp parts).
    + rewrite Hslash, Hstar, Hhash. cbn [andb negb].
      rewrite !positive_length_is_truthy.
      unfold matchPathPrefix, parts. cbn [path].
      now destruct (_ <? _)%nat.
Qed.

End BothVersions.

(** * From signal to handler *)

Section EndToEnd.

Context {Handler : Type}.
Variable SiteManager : option (option string -> result (option Handler)).
Variable invoke : Handler -> PageInfo -> HandlerRun.
Hypothesis handlersQuiet : Quiet invoke.

Lemma process_calls_handler
      (w : World Handler) (u : option string)
      (findHandler : option string -> result (option Handler)) (h : Handler) :
  SiteManager = Some findHandler ->
  findHandler u = Ok (Some h) ->
  (CONFIG.URL_REPEAT_THRESHOLD <= now w - lastProcessTime (state w))%Z ->
  exists after,
    trace (processUrlChange SiteManager invoke u w)
    = (trace w
         ++ [LogProcessing u; FindHandlerCall u;
             HandlerCall h {| url := u; page := thePage w;
                              timestamp := now w |}]
         ++ after)%list /\
    (after = [] \/ exists e, after = [LogError e]).
Proof.
  intros HS Hf late. unfold processUrlChange. cbn [state now emit].
  destruct (Z.ltb_spec (now w - lastProcessTime (state w))
                       CONFIG.URL_REPEAT_THRESHOLD) as [lt|_]; [lia|].
  rewrite andb_false_r. unfold dispatch. rewrite HS, Hf.
  cbn [thePage emit withState trace]. cbv zeta.
  match goal with
  | |- context [signalAll ?l ?x] =>
      destruct (signalAll_keeps l x) as (_ & _ & _ & _ & Htr);
      set (ran := signalAll l x) in *
  end.
  destruct (outcome (invoke h _));
    [|unfold emit; cbn [trace]];
    rewrite Htr; unfold emit, withState; cbn [trace].
  - exists []. split; [now rewrite <- !app_assoc | now left].
  - eexists [LogError _]. split; [now rewrite <- !app_assoc|].
    right. eexists; reflexivity.
Qed.

(** X18: from signal to handler.  In a world that keeps the invariant
    and whose last processing is not in the future, a signal for a URL
    the site manager has a handler for, followed by a quiet period of
    at least the debounce delay, leads to one call of that handler,
    with the URL, the page as it is and the time of the signal plus the
    delay as timestamp; after it comes at most the log line of an
    exception the handler threw.  [lastProcessedUrl] and
    [lastProcessTime] record the dispatch.  The handler signals
    nothing while it runs ([handlersQuiet]). *)
Theorem signal_reaches_handler
        (w : World Handler) (u : string) (quiet : N)
        (findHandler : option string -> result (option Handler)) (h : Handler) :
  Inv w ->
  (lastProcessTime (state w) <= now w)%Z ->
  SiteManager = Some findHandler ->
  findHandler (Some u) = Ok (Some h) ->
  (CONFIG.URL_PROCESS_DELAY <= Z.of_N quiet)%Z ->
  let settled := run SiteManager invoke [Signal u; Wait quiet] w in
  let firedAt := (now w + CONFIG.URL_PROCESS_DELAY)%Z in
  (exists after,
      trace settled
      = (trace w
           ++ [LogProcessing (Some u); FindHandlerCall (Some u);
               HandlerCall h {| url := Some u; page := thePage w;
                                timestamp := firedAt |}]
           ++ after)%list /\
      (after = [] \/ exists e, after = [LogError e])) /\
  lastProcessedUrl (state settled) = Some u /\
  lastProcessTime (state settled) = firedAt /\
  now settled = (now w + Z.of_N quiet)%Z /\
  timers settled = [].
Proof.
  intros I Hlpt HS Hf long settled firedAt.
  unfold settled.
  change (run SiteManager invoke [Signal u; Wait quiet] w)
    with (exec SiteManager invoke (handleUrlChange u w) (Wait quiet)).
  rewrite (handleUrlChange_inv u w I).
  set (armed := {| state := _ |}).
  rewrite (wait_due SiteManager invoke handlersQuiet quiet armed (nextHandle w) firedAt)
    by (try reflexivity; unfold firedAt, armed; cbn [now];
        unfold CONFIG.URL_PROCESS_DELAY in *; lia).
  set (x := clearTimeout (nextHandle w) (setNow (Z.max (now armed) firedAt) armed)).
  assert (now x = firedAt) as Nx
      by (unfold x, firedAt, armed; cbn [now clearTimeout setNow];
          unfold CONFIG.URL_PROCESS_DELAY; lia).
  assert (CONFIG.URL_REPEAT_THRESHOLD <= now x - lastProcessTime (state x))%Z
    as late.
  { rewrite Nx. unfold x, firedAt, armed.
    cbn [state clearTimeout setNow lastProcessTime].
    unfold CONFIG.URL_PROCESS_DELAY, CONFIG.URL_REPEAT_THRESHOLD. lia. }
  destruct (process_calls_handler x (Some u) findHandler h HS Hf late)
    as [after [Htrace Hafter]].
  pose proof (processUrlChange_state SiteManager invoke handlersQuiet (Some u) x) as Hstate.
  destruct (Z.ltb_spec (now x - lastProcessTime (state x))
                       CONFIG.URL_REPEAT_THRESHOLD) as [lt|_] in Hstate;
    [lia|].
  rewrite andb_false_r in Hstate.
  destruct (processUrlChange_frame SiteManager invoke handlersQuiet (Some u) x)
    as (_ & _ & Hn & Ht & _).
  unfold timerCallback, setUrlChangeTimer, withState.
  change (pendingUrl (state x)) with (Some u).
  cbn [trace state now timers setNow lastProcessedUrl lastProcessTime].
  rewrite Hstate, Htrace, Ht, Nx.
  cbn [lastProcessedUrl lastProcessTime].
  split; [exists after; now split|].
  split; [reflexivity|]. split; [reflexivity|]. split; [reflexivity|].
  unfold x. cbn. now rewrite N.eqb_refl.
Qed.

End EndToEnd.

(** * Instances of the further results *)

Lemma matchPathExact_strips_one_slash_witness :
  matchPathExact "/catalog/" (parseUrlParts "/catalog") = true /\
  matchPathExact "/catalog" (parseUrlParts "/catalog/#top") = true.
Proof.
  destruct (matchPathExact_strips_one_slash "/catalog" "/catalog"
              eq_refl eq_refl
              (parseUrlParts "/catalog") (parseUrlParts "/catalog/#top")
              eq_refl eq_refl)
    as (_ & ruleSlashed & pathSlashed & _).
  split; [exact ruleSlashed | exact pathSlashed].
Defined.

Lemma matchPathPrefix_slashes_and_depth_witness :
  matchPathPrefix "/a" (parseUrlParts "/a/b/c") = true.
Proof.
  destruct matchPathPrefix_slashes_and_depth as (_ & deeper & _).
  apply (deeper "/a" "/a/b" "c" (parseUrlParts "/a/b") (parseUrlParts "/a/b/c"));
    reflexivity.
Defined.

Lemma first_matching_route_decides_witness :
  findHandlerForUrl (P := Demo.platform) Demo.configs "https://example.com/a/b"
  = Ok (Some "handleA").
Proof.
  apply (first_matching_route_decides (P := Demo.platform)
           Demo.configs "https://example.com/a/b"
           {| hostname := "example.com"; pathname := "/a/b"; search := "";
              hash := "" |}
           {| siteUrl := "example.com";
              routes := [ {| routePath := "/^\/users\/(\d+$/";
                             matchType := Some "regex";
                             handler := Some "handleUsers" |};
                          {| routePath := "/a"; matchType := None;
                             handler := Some "handleA" |};
                          {| routePath := "/"; matchType := None;
                             handler := Some "handleAllPages" |} ] |}
           [ {| routePath := "/^\/users\/(\d+$/"; matchType := Some "regex";
                handler := Some "handleUsers" |} ]
           [ {| routePath := "/"; matchType := None;
                handler := Some "handleAllPages" |} ]
           {| routePath := "/a"; matchType := None;
              handler := Some "handleA" |});
    try reflexivity.
  intros x [<- | []]. reflexivity.
Defined.

Lemma later_sites_are_not_consulted_witness :
  findHandlerForUrl (P := Demo.platform)
    [ {| siteUrl := "example.com";
         routes := [ {| routePath := "/x"; matchType := None;
                        handler := Some "handleX" |} ] |};
      {| siteUrl := "example";
         routes := [ {| routePath := "/"; matchType := None;
                        handler := Some "handleAllPages" |} ] |} ]
    "https://example.com/a"
  = Ok None.
Proof.
  apply (later_sites_are_not_consulted (P := Demo.platform)
           "https://example.com/a"
           {| hostname := "example.com"; pathname := "/a"; search := "";
              hash := "" |}
           []
           [ {| siteUrl := "example";
                routes := [ {| routePath := "/"; matchType := None;
                               handler := Some "handleAllPages" |} ] |} ]
           {| siteUrl := "example.com";
              routes := [ {| routePath := "/x"; matchType := None;
                             handler := Some "handleX" |} ] |});
    try reflexivity.
  - intros s [].
  - intros r [<- | []]. reflexivity.
Defined.

Lemma parseUrlParts_of_assembled_witness :
  parseUrlParts "/a#/b"
  = {| path := "/a"; query := ""; hashPart := "#/b"; fullPathOf := "/a#/b" |} /\
  parseUrlParts "/a?x=1#h"
  = {| path := "/a"; query := "x=1"; hashPart := "#h";
       fullPathOf := "/a?x=1#h" |}.
Proof.
  destruct parseUrlParts_of_assembled as [unqueried queried].
  split.
  - apply (unqueried "/a" "#/b"); try reflexivity.
    right. now exists "/b".
  - apply (queried "/a" "x=1" "#h"); try reflexivity; try discriminate.
    right. now exists "h".
Defined.

Lemma parseUrlParts_path_absorbs_fragment_witness :
  path (parseUrlParts "/v1/evhe/#/order/?id=1") = "/v1/evhe/#/order/".
Proof.
  apply (parseUrlParts_path_absorbs_fragment "/v1/evhe/" "/order/" "id=1");
    reflexivity.
Defined.


Lemma repeat_check_never_drops_witness :
  let SM := installedSiteManager (P := Demo.platform) Demo.configs in
  let w := run SM Demo.invoke
               [Signal "https://example.com/a"; Wait 2000;
                Signal "https://example.com/a"; Wait 2000]
               (initialWorld 0 Demo.page) in
  Quiet Demo.invoke /\
  consulted (trace w) = dispatched (trace w).
Proof.
  intros SM w.
  assert (Quiet Demo.invoke) as Q by (intros h info; reflexivity).
  split; [exact Q|].
  apply (proj1 (repeat_check_never_drops SM Demo.invoke Q) _ 0%Z Demo.page
           (fun url => findHandlerForUrl (P := Demo.platform) Demo.configs
                         (toStringOrNull url))).
  - reflexivity.
  - discriminate.
Defined.

Lemma dispatched_are_signals_in_order_witness :
  let SM := installedSiteManager (P := Demo.platform) Demo.configs in
  let events :=
    [Signal "https://example.com/a"; Wait 100;
     Signal "https://example.com/b"; Wait 2000;
     Signal "https://example.com/c"; Wait 2000] in
  Quiet Demo.invoke /\
  Subseq (dispatched (trace (run SM Demo.invoke events
                                 (initialWorld 0 Demo.page))))
         (signalsOf events).
Proof.
  intros SM events.
  assert (Quiet Demo.invoke) as Q by (intros h info; reflexivity).
  split; [exact Q|].
  apply (proj1 (dispatched_are_signals_in_order SM Demo.invoke Q)
           events 0%Z Demo.page).
Defined.

Lemma dispatcher_state_ignores_handlers_witness :
  let SM := installedSiteManager (P := Demo.platform) Demo.configs in
  let events :=
    [Signal "https://example.com/a"; Wait 100;
     Signal "https://example.com/b"; Wait 2000] in
  Quiet Demo.invoke /\
  Quiet (fun (h : string) (info : PageInfo) =>
           {| signalled := []; outcome := Throw (TypeError "handler") |}) /\
  core (run SM Demo.invoke events (initialWorld 0 Demo.page))
  = core (run None
              (fun (h : string) (info : PageInfo) =>
                 {| signalled := []; outcome := Throw (TypeError "handler") |})
              events (initialWorld 0 Demo.page)).
Proof.
  intros SM events.
  assert (Quiet Demo.invoke) as Q1 by (intros h info; reflexivity).
  assert (Quiet (fun (h : string) (info : PageInfo) =>
                   {| signalled := [];
                      outcome := Throw (TypeError "handler") |})) as Q2
      by (intros h info; reflexivity).
  split; [exact Q1|]. split; [exact Q2|].
  apply (proj1 (dispatcher_state_ignores_handlers SM None Demo.invoke _ Q1 Q2)
           events (initialWorld 0 Demo.page)).
Defined.

Lemma last_signal_is_dispatched_witness :
  let SM := installedSiteManager (P := Demo.platform) Demo.configs in
  exists before,
    dispatched
      (trace (run SM Demo.invoke
                ([Signal "https://example.com/a"; Wait 100;
                  Signal "https://example.com/b"] ++ [Wait 2000])%list
                (initialWorld 0 Demo.page)))
    = (before ++ [Some "https://example.com/b"])%list.
Proof.
  intros SM.
  apply (last_signal_is_dispatched SM Demo.invoke (fun _ _ => eq_refl)
           [Signal "https://example.com/a"; Wait 100;
            Signal "https://example.com/b"] 0 Demo.page
           "https://example.com/b" 2000).
  - reflexivity.
  - discriminate.
Defined.

Lemma monitor_notifies_once_per_init_witness :
  let navigate := fun (_ urlArg : string) => Ok ("https://example.com" ++ urlArg) in
  let record := fun (h : string) (seen : list string) => h :: seen in
  let w := Nat.iter 2 (initUrlMonitor record (Some false))
                    (freshWindow "https://example.com/" []) in
  exists w',
    callHistory navigate (pushState w) "/a" w = Ok w' /\
    href w' = "https://example.com/a" /\
    owner w' = ["https://example.com/a"; "https://example.com/a"].
Proof.
  intros navigate record w.
  destruct (monitor_notifies_once_per_init navigate record 2
              "https://example.com/" "/a" [])
    as (_ & _ & pushed & _).
  destruct (pushed "https://example.com/a" eq_refl) as [found _].
  exact found.
Defined.


Lemma legacy_regex_branch_is_dead_witness :
  Legacy.routeMatches (P := Demo.platform) "/users/7" "/users/7" ""
    {| Legacy.routePath := "/^\/users\/\d+$/";
       Legacy.handler := Some "handleUsers" |}
  = Ok false.
Proof.
  destruct (legacy_regex_branch_is_dead (Handler := string)) as [_ prefixed].
  apply (prefixed Demo.platform "/users/7" "/users/7" ""
                  "/^\/users\/\d+$/" (Some "handleUsers"));
    reflexivity.
Defined.

Lemma plain_route_same_in_both_versions_witness :
  Legacy.routeMatches (P := Demo.platform) "/a/b#x" "/a/b" "#x"
    {| Legacy.routePath := "/a"; Legacy.handler := Some "handleA" |}
  = routeMatches (P := Demo.platform) "/a/b#x"
      {| routePath := "/a"; matchType := None; handler := Some "handleA" |}.
Proof.
  apply (plain_route_same_in_both_versions (P := Demo.platform)
           "/a" "/a/b" "#x" (Some "handleA"));
    try reflexivity.
  right. now exists "x".
Defined.

Lemma signal_reaches_handler_witness :
  let SM := installedSiteManager (P := Demo.platform) Demo.configs in
  let settled := run SM Demo.invoke
                     [Signal "https://example.com/a"; Wait 2000]
                     (initialWorld 0 Demo.page) in
  lastProcessedUrl (state settled) = Some "https://example.com/a" /\
  lastProcessTime (state settled) = 2000%Z.
Proof.
  intros SM settled.
  destruct (signal_reaches_handler SM Demo.invoke (fun _ _ => eq_refl)
              (initialWorld 0 Demo.page) "https://example.com/a" 2000
              (fun url => findHandlerForUrl (P := Demo.platform) Demo.configs
                            (toStringOrNull url))
              "handleA")
    as (_ & url & time & _).
  - split; reflexivity.
  - discriminate.
  - reflexivity.
  - reflexivity.
  - discriminate.
  - split; [exact url | exact time].
Defined.
